(** * A Turing machine interpreter written with C++ templates

    Shallow embedding of [turing-machine.cpp].  Every class template of the
    source that computes a type ([move_left], [write_tape], [run], ...)
    becomes a function on the values that stand for those types; a template
    that is declared without a definition for some arguments (a use of it
    does not compile) becomes a partial function.  The second half of the
    definitions embeds [mu-recursive-functions.cpp] the same way. *)

From Stdlib Require Import Ascii String List Bool Arith Lia.
Import ListNotations.

Local Open Scope char_scope.

(** ** Symbols *)

(** The special empty symbol. *)
Definition empty : ascii := "#".

(** Match any symbol or don't change the current symbol. *)
Definition wildcard : ascii := "?".

(** ** Stacks

    [nil] is a perfectly usable cell: its [top] is the empty symbol and its
    [tail] is [nil] again, so a stack never runs out of empty symbols. *)

Inductive Stack : Type :=
| nil : Stack
| stack (Head : ascii) (Tail : Stack) : Stack.

Definition top (s : Stack) : ascii :=
  match s with
  | nil => empty
  | stack Head _ => Head
  end.

Definition tail (s : Stack) : Stack :=
  match s with
  | nil => nil
  | stack _ Tail => Tail
  end.

Definition push (New : ascii) (s : Stack) : Stack := stack New s.

Definition pop (s : Stack) : Stack := tail s.

(** The cells [print_stack] walks through: the ones that were created. *)
Fixpoint cells (s : Stack) : list ascii :=
  match s with
  | nil => []
  | stack Head Tail => Head :: cells Tail
  end.

(** The symbol found [n] cells below the top: [n] times [pop], then [top]. *)
Fixpoint cell (s : Stack) (n : nat) : ascii :=
  match n with
  | 0 => top s
  | S n' => cell (pop s) n'
  end.

(** Two stacks with the same content: they show the same symbol at every
    depth, created or not. *)
Definition same_stack (a b : Stack) : Prop := forall n, cell a n = cell b n.

(** ** Tapes *)

Inductive Tape : Type :=
| tape (Left : Stack) (Head : ascii) (Right : Stack) : Tape.

Definition left (t : Tape) : Stack := let (l, _, _) := t in l.
Definition head (t : Tape) : ascii := let (_, h, _) := t in h.
Definition right (t : Tape) : Stack := let (_, _, r) := t in r.

Definition move_left (t : Tape) : Tape :=
  tape (pop (left t)) (top (left t)) (push (head t) (right t)).

Definition move_right (t : Tape) : Tape :=
  tape (push (head t) (left t)) (top (right t)) (pop (right t)).

Fixpoint stackify (cs : list ascii) : Stack :=
  match cs with
  | C :: Cs => stack C (stackify Cs)
  | [] => nil
  end.

(** The first symbol goes under the head, the remaining ones to the right of
    it, in order. *)
Definition make_tape (cs : list ascii) : Tape :=
  match cs with
  | First :: Rest => tape nil First (stackify Rest)
  | [] => tape nil "#" nil
  end.

(** What [print_tape] shows, without the spaces and brackets: the left stack
    bottom first, the head, the right stack top first. *)
Definition tape_cells (t : Tape) : list ascii :=
  rev (cells (left t)) ++ head t :: cells (right t).

(** Two tapes with the same content. *)
Definition same_tape (t u : Tape) : Prop :=
  head t = head u
  /\ same_stack (left t) (left u)
  /\ same_stack (right t) (right u).

(** The symbols kept apart from the empty one. *)
Definition non_blank (cs : list ascii) : list ascii :=
  filter (fun c => negb (Ascii.eqb c empty)) cs.

(** [move_tape] is defined for the directions ['L'], ['R'] and ['0'] only. *)
Definition move_tape (Dir : ascii) (t : Tape) : option Tape :=
  if Ascii.eqb Dir "L" then Some (move_left t)
  else if Ascii.eqb Dir "R" then Some (move_right t)
  else if Ascii.eqb Dir "0" then Some t
  else None.

(** Put a symbol under the head; the wildcard leaves the tape as it is. *)
Definition write_tape (t : Tape) (C : ascii) : Tape :=
  if Ascii.eqb C wildcard then t
  else tape (left t) C (right t).

(** Two stacks, two tapes that are the same type. *)
Fixpoint stack_is_same (a b : Stack) : bool :=
  match a, b with
  | nil, nil => true
  | stack Head Tail, stack Head' Tail' =>
      if Ascii.eqb Head Head' then stack_is_same Tail Tail' else false
  | _, _ => false
  end.

Definition tape_is_same (t u : Tape) : bool :=
  if stack_is_same (left t) (left u)
  then if Ascii.eqb (head t) (head u)
       then stack_is_same (right t) (right u)
       else false
  else false.

(** ** States

    A state of the machine is a type of the source: it is known by its
    identity ([std::is_same]) and carries the static member [final]. *)

Class States (State : Type) : Type := {
  is_same : State -> State -> bool;
  is_same_spec : forall a b : State, reflect (a = b) (is_same a b);
  final : State -> bool
}.

(** How [print_result] reports the machine [run] ends with. *)
Inductive Halting : Type :=
| Accepted   (* "Input accepted." *)
| Stuck      (* "Input not accepted." *).

Section Machine.

Context {State : Type} `{States State}.

(** ** Instructions *)

Record Instruction : Type := instruction {
  from_state : State;   (* The TM state to match *)
  head_read : ascii;    (* The symbol under the head to match *)
  to_state : State;     (* The TM state to transition to *)
  head_write : ascii;   (* The symbol to write (or wildcard) *)
  movement : ascii      (* Direction of the head movement *)
}.

(** Write the symbol, then move the tape; the state is the instruction's. *)
Definition execute_instruction (i : Instruction) (t : Tape)
  : option (State * Tape) :=
  match move_tape (movement i) (write_tape t (head_write i)) with
  | Some t' => Some (to_state i, t')
  | None => None
  end.

(** The test of [match_helper] on its first instruction. *)
Definition matches (s : State) (Head : ascii) (First : Instruction) : bool :=
  is_same s (from_state First)
  && (Ascii.eqb Head (head_read First) || Ascii.eqb (head_read First) wildcard).

(** The first matching instruction, or [None] for the special value [fail]. *)
Fixpoint match_helper (s : State) (Head : ascii) (Instructions : list Instruction)
  : option Instruction :=
  match Instructions with
  | First :: Rest =>
      if matches s Head First then Some First else match_helper s Head Rest
  | [] => None
  end.

(** Instruction list. *)
Definition Program : Type := list Instruction.

Definition match_instruction (p : Program) (s : State) (Head : ascii)
  : option Instruction :=
  match_helper s Head p.

(** ** The machine *)

Record Machine : Type := machine {
  machine_state : State;
  machine_tape : Tape;
  machine_program : Program
}.

Definition is_fail (NextInstruction : option Instruction) : bool :=
  match NextInstruction with
  | None => true
  | Some _ => false
  end.

(** Shall we continue? *)
Definition cont (m : Machine) (NextInstruction : option Instruction) : bool :=
  negb (final (machine_state m)) && negb (is_fail NextInstruction).

(** What instantiating [run] gives. *)
Inductive Run : Type :=
| result (m : Machine)   (* [run<M>::result] is the machine [m] *)
| ill_formed             (* a class not defined, or not complete, was needed *)
| unfinished             (* the instantiation depth allowed was used up *).

(** [run_helper], over the [run] it goes back to. *)
Definition run_helper (run : Machine -> Run) (m : Machine)
    (NextInstruction : option Instruction) (Continue : bool) : Run :=
  if Continue then
    match NextInstruction with
    | Some i =>
        match execute_instruction i (machine_tape m) with
        | Some (s', t') => run (machine s' t' (machine_program m))
        | None => ill_formed
        end
    | None => ill_formed
    end
  else result m.

(** Two instructions, programs, machines that are the same type. *)
Definition instruction_is_same (i j : Instruction) : bool :=
  if is_same (from_state i) (from_state j)
  then if Ascii.eqb (head_read i) (head_read j)
       then if is_same (to_state i) (to_state j)
            then if Ascii.eqb (head_write i) (head_write j)
                 then Ascii.eqb (movement i) (movement j)
                 else false
            else false
       else false
  else false.

Fixpoint program_is_same (p q : Program) : bool :=
  match p, q with
  | [], [] => true
  | i :: p', j :: q' =>
      if instruction_is_same i j then program_is_same p' q' else false
  | _, _ => false
  end.

Definition machine_is_same (m m' : Machine) : bool :=
  if is_same (machine_state m) (machine_state m')
  then if tape_is_same (machine_tape m) (machine_tape m')
       then program_is_same (machine_program m) (machine_program m')
       else false
  else false.

(** Is [run<m>] one of the instantiations [open], which are not complete
    yet? *)
Definition is_open (open : list Machine) (m : Machine) : bool :=
  existsb (machine_is_same m) open.

(** [run<m>], asked for while the instantiations [open] of [run] are not
    complete.  [run<M>::result] is [run<M'>::result] for the next machine
    [M'], so [run<M>] is not complete before [run<M'>] is: a machine that
    comes back to one of [open] asks for the [result] of a class that is
    not complete, and the program is ill-formed. *)
Fixpoint run_in (open : list Machine) (depth : nat) (m : Machine)
    {struct depth} : Run :=
  if is_open open m then ill_formed
  else
    match depth with
    | 0 => unfinished
    | S depth' =>
        let next :=
          match_instruction (machine_program m) (machine_state m)
            (head (machine_tape m)) in
        run_helper (run_in (m :: open) depth') m next (cont m next)
    end.

(** Run the machine until it halts (if it ever does), through at most
    [depth] instantiations of [run]. *)
Definition run (depth : nat) (m : Machine) : Run := run_in [] depth m.

(** One turn of [run] that continues: the machine [run] is instantiated
    with next. *)
Definition step (m : Machine) : option Machine :=
  let next :=
    match_instruction (machine_program m) (machine_state m)
      (head (machine_tape m)) in
  if cont m next then
    match next with
    | Some i =>
        match execute_instruction i (machine_tape m) with
        | Some (s', t') => Some (machine s' t' (machine_program m))
        | None => None
        end
    | None => None
    end
  else None.

(** The machines met after [n] steps. *)
Fixpoint steps (n : nat) (m : Machine) : option Machine :=
  match n with
  | 0 => Some m
  | S n' =>
      match step m with
      | Some m' => steps n' m'
      | None => None
      end
  end.

Definition halting (m : Machine) : Halting :=
  if final (machine_state m) then Accepted else Stuck.

(** An instruction that qualifies for a state and a symbol, in words. *)
Definition qualifies (s : State) (Head : ascii) (i : Instruction) : Prop :=
  from_state i = s /\ (head_read i = Head \/ head_read i = wildcard).

End Machine.

Arguments Instruction State : clear implicits.
Arguments Program State : clear implicits.
Arguments Machine State : clear implicits.
Arguments Run State : clear implicits.

(** ** The input reversal machine of [main] *)

Module Reversal.

Inductive state : Type :=
| put_right_marker | rewind
| go_right_a | go_right_b | go_left_a | go_left_b
| take_left | take_right
| clear | clear_a | clear_b | clear_last
| end_.

Definition state_eqb (a b : state) : bool :=
  match a, b with
  | put_right_marker, put_right_marker | rewind, rewind
  | go_right_a, go_right_a | go_right_b, go_right_b
  | go_left_a, go_left_a | go_left_b, go_left_b
  | take_left, take_left | take_right, take_right
  | clear, clear | clear_a, clear_a | clear_b, clear_b
  | clear_last, clear_last | end_, end_ => true
  | _, _ => false
  end.

Lemma state_eqb_spec (a b : state) : reflect (a = b) (state_eqb a b).
Proof. destruct a, b; constructor; congruence. Qed.

(** Only [end] derives from [state<true>]. *)
#[export] Instance reverse_states : States state := {
  is_same := state_eqb;
  is_same_spec := state_eqb_spec;
  final := fun s => match s with end_ => true | _ => false end
}.

Definition reverse_prog : Program state := [
  instruction put_right_marker   "#" rewind            "|" "L";
  instruction put_right_marker   "?" put_right_marker  "?" "R";

  instruction rewind             "#" take_left         "#" "R";
  instruction rewind             "?" rewind            "?" "L";

  instruction take_left          "a" go_right_a        "|" "R";
  instruction take_left          "b" go_right_b        "|" "R";
  instruction take_left          "|" clear             "|" "R";

  instruction go_right_a         "|" take_right        "a" "L";
  instruction go_right_b         "|" take_right        "b" "L";
  instruction go_right_a         "?" go_right_a        "?" "R";
  instruction go_right_b         "?" go_right_b        "?" "R";

  instruction take_right         "a" go_left_a         "|" "L";
  instruction take_right         "b" go_left_b         "|" "L";
  instruction take_right         "|" clear             "|" "R";

  instruction go_left_a          "|" take_left         "a" "R";
  instruction go_left_b          "|" take_left         "b" "R";
  instruction go_left_a          "?" go_left_a         "?" "L";
  instruction go_left_b          "?" go_left_b         "?" "L";

  instruction clear              "a" clear_a           "|" "L";
  instruction clear              "b" clear_b           "|" "L";
  instruction clear              "|" clear             "|" "R";
  instruction clear              "#" clear_last        "#" "L";
  instruction clear_a            "|" clear             "a" "R";
  instruction clear_b            "|" clear             "b" "R";
  instruction clear_last         "|" end_              "#" "0"
].

Definition reverse_tape1 : Tape :=
  make_tape ["a"; "b"; "a"; "a"; "b"; "b"; "a"].

(** The machine the first run of [main] ends with; its tape is printed as
    [# a b b a a b a [#] #]. *)
Definition reversed : Machine state :=
  machine end_
    (tape (stackify (list_ascii_of_string "abaabba#")) "#" (stack "#" nil))
    reverse_prog.

(** The letters of the words the machine reverses. *)
Definition letter (c : ascii) : Prop := c = "a" \/ c = "b".

(** The states that carry a letter to the right, to the left, and one
    cell to the left while clearing. *)
Definition go_right (c : ascii) : state :=
  if Ascii.eqb c "a" then go_right_a else go_right_b.

Definition go_left (c : ascii) : state :=
  if Ascii.eqb c "a" then go_left_a else go_left_b.

Definition clear_letter (c : ascii) : state :=
  if Ascii.eqb c "a" then clear_a else clear_b.

End Reversal.

(** ** Acceptor of { a^n b^n c^n : n >= 0 } of [main] *)

Module Acceptor.

Inductive state : Type :=
| check_a | check_b | check_c | find_end | rewind
| accept
| fail.

Definition lang_state_eqb (a b : state) : bool :=
  match a, b with
  | check_a, check_a | check_b, check_b | check_c, check_c
  | find_end, find_end | rewind, rewind
  | accept, accept | fail, fail => true
  | _, _ => false
  end.

Lemma lang_state_eqb_spec (a b : state) : reflect (a = b) (lang_state_eqb a b).
Proof. destruct a, b; constructor; congruence. Qed.

(** Only [accept] derives from [state<true>]. *)
#[export] Instance lang_states : States state := {
  is_same := lang_state_eqb;
  is_same_spec := lang_state_eqb_spec;
  final := fun s => match s with accept => true | _ => false end
}.

Definition lang_prog : Program state := [
  instruction check_a    "x" check_a   "x" "R";
  instruction check_a    "a" check_b   "x" "R";
  instruction check_a    "#" accept    "#" "0";
  instruction check_b    "b" check_c   "x" "R";
  instruction check_b    "#" fail      "#" "0";
  instruction check_b    "?" check_b   "?" "R";
  instruction check_c    "c" find_end  "x" "R";
  instruction check_c    "#" fail      "#" "0";
  instruction check_c    "?" check_c   "?" "R";
  instruction find_end   "c" find_end  "c" "R";
  instruction find_end   "#" rewind    "#" "L";
  instruction rewind     "#" check_a   "#" "R";
  instruction rewind     "?" rewind    "?" "L"
].

(** The word a^n b^n c^n. *)
Definition anbncn (n : nat) : list ascii :=
  repeat "a" n ++ repeat "b" n ++ repeat "c" n.

(** The tape after [i] passes: [i] of the [a], of the [b] and of the [c]
    are crossed out, [ja], [jb] and [jc] of them are left. *)
Definition crossed (i ja jb jc : nat) : list ascii :=
  repeat "x" i ++ repeat "a" ja
  ++ repeat "x" i ++ repeat "b" jb
  ++ repeat "x" i ++ repeat "c" jc.

End Acceptor.

(** ** Printing

    What the printing functions send to [std::cout], character by
    character. *)

Definition newline : ascii := "010".

Fixpoint print_stack (s : Stack) (space : bool) : list ascii :=
  match s with
  | stack Head Tail =>
      (if space then [" "] else []) ++ Head :: print_stack Tail true
  | nil => if space then [" "] else []
  end.

(** Also prints a stack, but in reverse order. *)
Fixpoint print_stack_reverse (s : Stack) : list ascii :=
  match s with
  | stack Head Tail => print_stack_reverse Tail ++ [Head; " "]
  | nil => []
  end.

Definition print_tape (t : Tape) : list ascii :=
  print_stack_reverse (left t)
  ++ ["["; head t; "]"]
  ++ print_stack (right t) true
  ++ [newline].

(** ** Tapes by the cells around the head

    Used to state what a machine does on every tape of a family. *)

(** The stack with the cells [w], the first on top, over [s]. *)
Definition cells_over (w : list ascii) (s : Stack) : Stack :=
  fold_right stack s w.

(** The tape with the head on the first cell of [v] (of [R] when [v] is
    empty), and [u] to its left, the nearest first. *)
Definition head_right (L : Stack) (u v : list ascii) (R : Stack) : Tape :=
  tape (cells_over u L) (top (cells_over v R)) (pop (cells_over v R)).

(** The tape with the head on the first cell of [u] (of [L] when [u] is
    empty), and [v] to its right. *)
Definition head_left (L : Stack) (u v : list ascii) (R : Stack) : Tape :=
  tape (pop (cells_over u L)) (top (cells_over u L)) (cells_over v R).

(** A stack of empty cells only. *)
Definition blank (s : Stack) : Prop := Forall (eq empty) (cells s).

Section Reaching.

Context {State : Type} `{States State}.

(** The machine [m'] is met after some steps from [m]. *)
Definition reaches (m m' : Machine State) : Prop :=
  exists n, steps n m = Some m'.

(** In state [q] the program [p] steps over the symbol [c] to the right,
    leaving it as it is. *)
Definition skips_right (p : Program State) (q : State) (c : ascii) : Prop :=
  forall L R,
    step (machine q (tape L c R) p)
    = Some (machine q (move_right (tape L c R)) p).

Definition skips_left (p : Program State) (q : State) (c : ascii) : Prop :=
  forall L R,
    step (machine q (tape L c R) p)
    = Some (machine q (move_left (tape L c R)) p).

(** From [m] the machine comes to [r] and halts there, no instruction
    matching. *)
Definition halts_in (m r : Machine State) : Prop :=
  reaches m r
  /\ step r = None
  /\ match_instruction (machine_program r) (machine_state r)
       (head (machine_tape r)) = None.

End Reaching.

(** * mu-recursive functions

    Shallow embedding of [mu-recursive-functions.cpp].  A class template
    over [unsigned...] with a static member [value] becomes a function
    from the list of its arguments to what its [value] is. *)

From Stdlib Require Import NArith.

Module Mu.

Local Open Scope N_scope.

(** What the member [value] of an instantiation is. *)
Inductive Result (A : Type) : Type :=
| value (a : A)   (* it has this value *)
| ill_formed      (* the instantiation does not compile *)
| unfinished      (* the instantiation depth allowed was used up *).

Arguments value {A} a.
Arguments ill_formed {A}.
Arguments unfinished {A}.

Definition bind {A B : Type} (r : Result A) (k : A -> Result B) : Result B :=
  match r with
  | value a => k a
  | ill_formed => ill_formed
  | unfinished => unfinished
  end.

(** The values of a pack expansion, from the first to the last. *)
Fixpoint all_values {A : Type} (rs : list (Result A)) : Result (list A) :=
  match rs with
  | [] => value []
  | r :: rs' => bind r (fun a => bind (all_values rs') (fun l => value (a :: l)))
  end.

(** A template over [unsigned...]: the instantiation depth allowed to the
    minimisations in it, and the arguments, give its [value]. *)
Definition Function : Type := nat -> list N -> Result N.

Section Width.

(** The number of bits of [unsigned] and of [int]. *)
Variable bits : N.

(** [unsigned] holds the numbers below [unsigned_values], [int] the
    numbers from 0 below [int_values] (and as many negative ones). *)
Definition unsigned_values : N := 2 ^ bits.
Definition int_values : N := 2 ^ (bits - 1).

(** An [unsigned] constant given for an [int] parameter has to fit. *)
Definition fits_int (x : N) : bool := x <? int_values.

(** ** Elementary functions *)

(** zero(x_1, ..., x_n) = 0 *)
Definition zero : Function := fun _ _ => value 0.

(** successor(x) = x + 1, in [unsigned] *)
Definition successor : Function :=
  fun _ Xs =>
    match Xs with
    | [X] => value ((X + 1) mod unsigned_values)
    | _ => ill_formed
    end.

(** [projection<I>::fun<First, Rest...>], [I] counted from 0. *)
Fixpoint projection (I : nat) (depth : nat) (Xs : list N) : Result N :=
  match I with
  | O =>
      match Xs with
      | X :: _ => value X
      | [] => ill_formed
      end
  | S I' =>
      match Xs with
      | First :: Rest =>
          (* static_assert(sizeof...(Rest) + 1 >= I, "Invalid projection") *)
          if (I <=? length Rest + 1)%nat then projection I' depth Rest
          else ill_formed
      | [] => ill_formed
      end
  end.

(** ** Operators *)

(** substitution(h, g_1, ..., g_m)(xs) = h(g_1(xs), ..., g_m(xs)) *)
Definition substitution (H : Function) (Gs : list Function) : Function :=
  fun depth Xs =>
    bind (all_values (map (fun G => G depth Xs) Gs)) (H depth).

(** [recursion_helper<G, H, Y, Xs...>]: [G] at [Y = 0], else [H] of
    [Y - 1], the value at [Y - 1], and [Xs]. *)
Fixpoint recursion_helper (G H : Function) (Y : nat) (Xs : list N)
    (depth : nat) : Result N :=
  match Y with
  | O => G depth Xs
  | S Y' =>
      bind (recursion_helper G H Y' Xs depth)
        (fun z => H depth (N.of_nat Y' :: z :: Xs))
  end.

(** [recursion<G, H>::fun<Y, Xs...>]: its parameters are [int]s. *)
Definition recursion (G H : Function) : Function :=
  fun depth args =>
    match args with
    | Y :: Xs =>
        if forallb fits_int args
        then recursion_helper G H (N.to_nat Y) Xs depth
        else ill_formed
    | [] => ill_formed
    end.

(** [minimisation_helper<Z, F, Final, Xs...>]: [Z] when [Final], else the
    helper for [Z + 1].  The [value] of a helper that is not [Final] is
    the [value] of the next one, so it is not complete before the next
    one is: [open] holds the [Z] of the helpers that are not complete.
    [Z + 1] is an [unsigned]: past the last one it is 0 again, and the
    helper asked for then is one of [open], whose [value] is not there
    yet: the program is ill-formed. *)
Fixpoint minimisation_helper (F : Function) (Xs : list N) (open : list N)
    (depth : nat) (Z : N) (Final : bool) : Result N :=
  if Final then value Z
  else if existsb (N.eqb Z) open then ill_formed
  else
    match depth with
    | O => unfinished
    | S depth' =>
        bind (F depth' ((Z + 1) mod unsigned_values :: Xs))
          (fun v =>
             minimisation_helper F Xs (Z :: open) depth'
               ((Z + 1) mod unsigned_values) (v =? 0))
    end.

Definition minimisation (F : Function) : Function :=
  fun depth Xs =>
    bind (F depth (0 :: Xs))
      (fun v => minimisation_helper F Xs [] depth 0 (v =? 0)).

(** ** Some derived functions *)

(** An alias template with one parameter, with two. *)
Definition unary (f : Function) : Function :=
  fun depth Xs =>
    match Xs with
    | [_] => f depth Xs
    | _ => ill_formed
    end.

Definition binary (f : Function) : Function :=
  fun depth Xs =>
    match Xs with
    | [_; _] => f depth Xs
    | _ => ill_formed
    end.

(** constant_N(x_1, ..., x_k) := N *)
Fixpoint constant (n : nat) : Function :=
  match n with
  | O => zero
  | S n' => fun depth Xs => bind (constant n' depth Xs) (fun v => successor depth [v])
  end.

(** sum(x, y) := x + y *)
Definition sum : Function :=
  binary (recursion (projection 0) (substitution successor [projection 1])).

(** pred(x) := x - 1 if x > 0, 0 if x = 0 *)
Definition pred : Function :=
  unary (recursion zero (projection 0)).

Definition sub1 : Function :=
  binary (recursion (projection 0) (substitution pred [projection 1])).

(** sub(x, y) = sub1(y, x) *)
Definition sub : Function :=
  binary (substitution sub1 [projection 1; projection 0]).

(** mul(x, y) := xy *)
Definition mul : Function :=
  binary (recursion zero (substitution sum [projection 1; projection 2])).

Definition sgn : Function := unary (recursion zero (constant 1)).

Definition cosgn : Function := unary (recursion (constant 1) zero).

(** lt(x, y) = sgn(y -' x) *)
Definition lt : Function :=
  binary (substitution sgn [substitution sub [projection 1; projection 0]]).

(** gt(x, y) = sgn(x -' y) *)
Definition gt : Function := binary (substitution sgn [sub]).

(** eq(x, y) = cosgn(lt(x, y) + gt(x, y)) *)
Definition eq : Function :=
  binary (substitution cosgn [substitution sum [lt; gt]]).

(** neq(x, y) = cosgn(eq(x, y)) *)
Definition neq : Function := binary (substitution cosgn [eq]).

(** square(x) := x*x *)
Definition square : Function :=
  unary (substitution mul [projection 0; projection 0]).

(** sqrt(x) = mu_z [neq(square(z), x)] *)
Definition sqrt : Function :=
  unary
    (minimisation
       (substitution neq [substitution square [projection 0]; projection 1])).

End Width.

End Mu.

(** ** Reading a tape by position

    The symbol at the position [z] counted from the head: to the right
    for [z] positive, to the left for [z] negative; a cell that was never
    created reads as empty. *)

From Stdlib Require Import ZArith.

Definition read (t : Tape) (z : Z) : ascii :=
  if (z =? 0)%Z then head t
  else if (0 <? z)%Z then cell (right t) (Z.to_nat (z - 1))
  else cell (left t) (Z.to_nat (- z - 1)).

(** ** Tapes with the same content

    How many cells more were created on the stack [b] than on [a]
    (fewer, when negative), and a number that has come closer to 0, or
    stayed, without changing sign. *)

Definition gap (a b : Stack) : Z :=
  (Z.of_nat (length (cells b)) - Z.of_nat (length (cells a)))%Z.

Definition closer (d d' : Z) : Prop :=
  (0 <= d' <= d)%Z \/ (d <= d' <= 0)%Z.

(** * Properties *)

(** ** Stacks and tapes *)

Lemma cell_nil (n : nat) : cell nil n = empty.
Proof. induction n as [|n IH]; simpl; auto. Qed.

Lemma cell_stackify (cs : list ascii) (n : nat) :
  cell (stackify cs) n = nth n cs empty.
Proof.
  revert n; induction cs as [|c cs IH]; intros n.
  - rewrite cell_nil. destruct n; reflexivity.
  - destruct n as [|n]; simpl; [reflexivity | apply IH].
Qed.

Lemma cells_stackify (cs : list ascii) : cells (stackify cs) = cs.
Proof. induction cs as [|c cs IH]; simpl; congruence. Qed.

Lemma stackify_cells (s : Stack) : stackify (cells s) = s.
Proof. induction s as [|h s IH]; simpl; congruence. Qed.

Lemma same_stack_refl (a : Stack) : same_stack a a.
Proof. intros n; reflexivity. Qed.

Lemma same_stack_sym (a b : Stack) : same_stack a b -> same_stack b a.
Proof. intros E n; symmetry; apply E. Qed.

Lemma same_stack_trans (a b c : Stack) :
  same_stack a b -> same_stack b c -> same_stack a c.
Proof. intros E F n; rewrite E; apply F. Qed.

(** Pushing back the top of a stack gives the same content; on [nil] it
    creates an empty cell. *)
Lemma push_top_pop (s : Stack) : same_stack (push (top s) (pop s)) s.
Proof.
  intros [|n].
  - reflexivity.
  - destruct s; reflexivity.
Qed.

Lemma push_top_pop_created (h : ascii) (s : Stack) :
  push (top (stack h s)) (pop (stack h s)) = stack h s.
Proof. reflexivity. Qed.

Lemma same_tape_refl (t : Tape) : same_tape t t.
Proof. repeat split; apply same_stack_refl. Qed.

Lemma same_tape_sym (t u : Tape) : same_tape t u -> same_tape u t.
Proof.
  intros (Eh & El & Er); repeat split; auto using same_stack_sym.
Qed.

Lemma same_tape_trans (t u v : Tape) :
  same_tape t u -> same_tape u v -> same_tape t v.
Proof.
  intros (Eh & El & Er) (Fh & Fl & Fr); repeat split;
    eauto using same_stack_trans; congruence.
Qed.

(** The operations on tapes do not tell apart tapes with the same
    content. *)
Lemma same_stack_top (a b : Stack) : same_stack a b -> top a = top b.
Proof. intros E; apply (E 0). Qed.

Lemma same_stack_pop (a b : Stack) :
  same_stack a b -> same_stack (pop a) (pop b).
Proof. intros E n; apply (E (S n)). Qed.

Lemma same_stack_push (c : ascii) (a b : Stack) :
  same_stack a b -> same_stack (push c a) (push c b).
Proof. intros E [|n]; [reflexivity | apply E]. Qed.

Lemma same_tape_move_left (t u : Tape) :
  same_tape t u -> same_tape (move_left t) (move_left u).
Proof.
  intros (Eh & El & Er); unfold move_left; repeat split; simpl.
  - apply same_stack_top, El.
  - apply same_stack_pop, El.
  - rewrite Eh. apply same_stack_push, Er.
Qed.

Lemma same_tape_move_right (t u : Tape) :
  same_tape t u -> same_tape (move_right t) (move_right u).
Proof.
  intros (Eh & El & Er); unfold move_right; repeat split; simpl.
  - apply same_stack_top, Er.
  - rewrite Eh. apply same_stack_push, El.
  - apply same_stack_pop, Er.
Qed.

Lemma same_tape_write (t u : Tape) (C : ascii) :
  same_tape t u -> same_tape (write_tape t C) (write_tape u C).
Proof.
  intros (Eh & El & Er); unfold write_tape.
  destruct (Ascii.eqb C wildcard); repeat split; assumption.
Qed.

(** What one move does to the cells shown. *)
Lemma tape_cells_move_left (t : Tape) :
  tape_cells (move_left t) =
  match left t with
  | nil => empty :: tape_cells t
  | stack _ _ => tape_cells t
  end.
Proof.
  destruct t as [[|h l] c r]; unfold tape_cells; simpl.
  - reflexivity.
  - rewrite <- app_assoc. reflexivity.
Qed.

Lemma tape_cells_move_right (t : Tape) :
  tape_cells (move_right t) =
  match right t with
  | nil => tape_cells t ++ [empty]
  | stack _ _ => tape_cells t
  end.
Proof.
  destruct t as [l c [|h r]]; unfold tape_cells; simpl.
  - rewrite <- app_assoc. reflexivity.
  - rewrite <- app_assoc. reflexivity.
Qed.

(** C5: writing the wildcard (the symbol that stands for "do not write")
    leaves the whole tape, and so its head symbol, as it was, whatever
    the head symbol is; writing any other symbol [C] changes the head
    symbol to [C] and nothing else. *)
Theorem write_tape_wildcard_or_symbol (t : Tape) (C : ascii) :
  (C = wildcard -> write_tape t C = t /\ head (write_tape t C) = head t)
  /\ (C <> wildcard ->
      write_tape t C = tape (left t) C (right t)
      /\ head (write_tape t C) = C
      /\ left (write_tape t C) = left t
      /\ right (write_tape t C) = right t).
Proof.
  unfold write_tape. destruct (Ascii.eqb_spec C wildcard) as [E|N].
  - split; [auto | intros N; contradiction].
  - split; [intros E; contradiction | intros _; repeat split].
Qed.

Lemma write_tape_wildcard_or_symbol_witness :
  (write_tape (make_tape ["a"; "b"]) "?" = make_tape ["a"; "b"]
   /\ head (write_tape (make_tape ["a"; "b"]) "?") = "a")
  /\ (write_tape (make_tape ["a"; "b"]) "x" = tape nil "x" (stack "b" nil)
      /\ head (write_tape (make_tape ["a"; "b"]) "x") = "x").
Proof.
  split.
  - apply (write_tape_wildcard_or_symbol (make_tape ["a"; "b"]) "?").
    reflexivity.
  - destruct (write_tape_wildcard_or_symbol (make_tape ["a"; "b"]) "x")
      as [_ W].
    destruct W as (W1 & W2 & _); [discriminate | split; assumption].
Defined.

(** C6: moving the head left and then right, or right and then left, gives a
    tape with the head symbol of the tape one started from and with the
    same content, a cell that was never created counting as empty.  The
    tape is the same value only up to the cell the first move may have
    created. *)
Theorem move_there_and_back (t : Tape) :
  (head (move_right (move_left t)) = head t
   /\ same_tape (move_right (move_left t)) t)
  /\ (head (move_left (move_right t)) = head t
      /\ same_tape (move_left (move_right t)) t)
  /\ move_right (move_left t) =
       tape (push (top (left t)) (pop (left t))) (head t) (right t)
  /\ move_left (move_right t) =
       tape (left t) (head t) (push (top (right t)) (pop (right t))).
Proof.
  destruct t as [l c r]; unfold move_left, move_right; simpl.
  repeat split; simpl;
    solve [apply same_stack_refl | apply (push_top_pop l)
          | apply (push_top_pop r)].
Qed.

(** The round trip is not the identity on tapes: from a tape with nothing
    to the left it leaves an empty cell there. *)
Lemma move_there_and_back_creates :
  move_right (move_left (make_tape [])) = tape (stack "#" nil) "#" nil
  /\ move_right (move_left (make_tape [])) <> make_tape [].
Proof. split; [reflexivity | discriminate]. Qed.

(** C7: a tape made from a first symbol and the rest has the first symbol
    under the head, no cell to the left, and the rest to the right in
    order; a tape made from no symbol has an empty head and no cell on
    either side. *)
Theorem make_tape_layout :
  (forall (First : ascii) (Rest : list ascii),
      head (make_tape (First :: Rest)) = First
      /\ left (make_tape (First :: Rest)) = nil
      /\ right (make_tape (First :: Rest)) = stackify Rest
      /\ cells (right (make_tape (First :: Rest))) = Rest
      /\ tape_cells (make_tape (First :: Rest)) = First :: Rest)
  /\ make_tape [] = tape nil empty nil
  /\ tape_cells (make_tape []) = [empty].
Proof.
  split; [| split; reflexivity].
  intros First Rest; unfold tape_cells; simpl.
  rewrite cells_stackify. repeat split.
Qed.

Lemma In_tape_cells_write (x C : ascii) (t : Tape) :
  In x (tape_cells (write_tape t C)) ->
  In x (tape_cells t) \/ (x = C /\ C <> wildcard).
Proof.
  unfold write_tape. destruct (Ascii.eqb_spec C wildcard) as [E|N].
  - auto.
  - destruct t as [l c r]; unfold tape_cells; simpl.
    rewrite !in_app_iff; simpl. intuition.
Qed.

Lemma In_tape_cells_move (Dir x : ascii) (t t' : Tape) :
  move_tape Dir t = Some t' ->
  In x (tape_cells t') -> In x (tape_cells t) \/ x = empty.
Proof.
  unfold move_tape.
  destruct (Ascii.eqb Dir "L"); [|destruct (Ascii.eqb Dir "R");
    [|destruct (Ascii.eqb Dir "0")]]; intros E; inversion E; subst t'.
  - rewrite tape_cells_move_left. destruct (left t); simpl; intuition.
  - rewrite tape_cells_move_right. destruct (right t); auto.
    rewrite in_app_iff; simpl; intuition.
  - auto.
Qed.

Lemma empty_is_not_wildcard : empty <> wildcard.
Proof. discriminate. Qed.

Lemma stack_is_same_spec (a b : Stack) : stack_is_same a b = true <-> a = b.
Proof.
  revert b; induction a as [|h a IH]; intros [|k b]; simpl;
    try (split; [discriminate | discriminate]); [tauto|].
  destruct (Ascii.eqb_spec h k) as [->|N].
  - rewrite IH. split; [intros ->; reflexivity | intros E; inversion E; auto].
  - split; [discriminate | intros E; inversion E; contradiction].
Qed.

Lemma tape_is_same_spec (t u : Tape) : tape_is_same t u = true <-> t = u.
Proof.
  destruct t as [l c r], u as [l' c' r']; unfold tape_is_same; simpl.
  destruct (stack_is_same l l') eqn:El.
  - apply stack_is_same_spec in El. subst l'.
    destruct (Ascii.eqb_spec c c') as [->|N].
    + rewrite stack_is_same_spec.
      split; [intros ->; reflexivity | intros E; inversion E; auto].
    + split; [discriminate | intros E; inversion E; contradiction].
  - split; [discriminate|]. intros E; inversion E; subst l'.
    assert (T : stack_is_same l l = true) by (apply stack_is_same_spec; auto).
    congruence.
Qed.

(** ** Matching and running *)

Section MachineProperties.

Context {State : Type} `{States State}.

Implicit Types (s : State) (c : ascii) (t : Tape).
Implicit Types (i j : Instruction State) (p : Program State).
Implicit Types (m r : Machine State).

Lemma is_same_refl s : is_same s s = true.
Proof. destruct (is_same_spec s s); congruence. Qed.

Lemma matches_qualifies s c i : matches s c i = true <-> qualifies s c i.
Proof.
  unfold matches, qualifies.
  rewrite andb_true_iff, orb_true_iff.
  destruct (is_same_spec s (from_state i)),
    (Ascii.eqb_spec c (head_read i)),
    (Ascii.eqb_spec (head_read i) wildcard); intuition congruence.
Qed.

Lemma not_matches_qualifies s c i :
  matches s c i = false <-> ~ qualifies s c i.
Proof.
  rewrite <- matches_qualifies. destruct (matches s c i); intuition congruence.
Qed.

Lemma match_helper_Some s c p i :
  match_helper s c p = Some i ->
  exists before after,
    p = before ++ i :: after
    /\ qualifies s c i
    /\ forall j, In j before -> ~ qualifies s c j.
Proof.
  induction p as [|First Rest IH]; simpl; [discriminate|].
  destruct (matches s c First) eqn:M.
  - intros E; inversion E; subst i.
    exists [], Rest. rewrite matches_qualifies in M.
    split; [reflexivity | split; [assumption | intros j []]].
  - rewrite not_matches_qualifies in M.
    intros E. destruct (IH E) as (before & after & -> & Q & N).
    exists (First :: before), after.
    split; [reflexivity | split; [assumption |]].
    intros j [<-|I]; auto.
Qed.

Lemma match_helper_first s c before i after :
  qualifies s c i ->
  (forall j, In j before -> ~ qualifies s c j) ->
  match_helper s c (before ++ i :: after) = Some i.
Proof.
  intros Q. induction before as [|b before IH]; simpl; intros N.
  - rewrite <- matches_qualifies in Q. rewrite Q. reflexivity.
  - assert (M : matches s c b = false)
      by (apply not_matches_qualifies, N; auto).
    rewrite M. apply IH. intros j I; apply N; auto.
Qed.

Lemma match_helper_None s c p :
  match_helper s c p = None <-> forall j, In j p -> ~ qualifies s c j.
Proof.
  induction p as [|First Rest IH]; simpl.
  - split; [intros _ j [] | reflexivity].
  - destruct (matches s c First) eqn:M.
    + split; [discriminate|].
      intros N. rewrite matches_qualifies in M.
      exfalso; apply (N First); auto.
    + rewrite not_matches_qualifies in M. rewrite IH.
      split; [intros N j [<-|I]; auto | intros N j I; apply N; auto].
Qed.

(** C2: [match_instruction] gives the first instruction, in the order of
    the list, whose from-state is the state and whose read symbol is the
    symbol or the wildcard, and the special value fail ([None]) when no
    instruction is such.  So an instruction that reads the wildcard is
    matched by every symbol in its state, and an instruction that
    qualifies wins over all that come after it. *)
Theorem match_instruction_first_qualifying p s c :
  (forall i,
      match_instruction p s c = Some i <->
      exists before after,
        p = before ++ i :: after
        /\ qualifies s c i
        /\ forall j, In j before -> ~ qualifies s c j)
  /\ (match_instruction p s c = None <->
      forall j, In j p -> ~ qualifies s c j)
  /\ (forall i, head_read i = wildcard -> qualifies (from_state i) c i)
  /\ (forall i, In i p -> from_state i = s -> head_read i = wildcard ->
      exists j, match_instruction p s c = Some j)
  /\ (forall before i after j,
      p = before ++ i :: after ->
      qualifies s c i ->
      (forall k, In k before -> ~ qualifies s c k) ->
      In j after -> qualifies s c j ->
      match_instruction p s c = Some i).
Proof.
  unfold match_instruction. split; [|split; [|split; [|split]]].
  - intros i; split.
    + apply match_helper_Some.
    + intros (before & after & -> & Q & N).
      apply match_helper_first; assumption.
  - apply match_helper_None.
  - intros i W; split; auto.
  - intros i I F W.
    destruct (match_helper s c p) as [j|] eqn:E; [eauto|].
    rewrite match_helper_None in E.
    exfalso; apply (E i I). split; auto.
  - intros before i after j -> Qi N _ _.
    apply match_helper_first; assumption.
Qed.

(** *** Sameness of machines *)

Lemma instruction_is_same_spec i j : instruction_is_same i j = true <-> i = j.
Proof.
  destruct i as [f r t w v], j as [f' r' t' w' v'].
  unfold instruction_is_same; simpl.
  destruct (is_same_spec f f') as [->|N];
    [|split; [discriminate | intros E; inversion E; contradiction]].
  destruct (Ascii.eqb_spec r r') as [->|N];
    [|split; [discriminate | intros E; inversion E; contradiction]].
  destruct (is_same_spec t t') as [->|N];
    [|split; [discriminate | intros E; inversion E; contradiction]].
  destruct (Ascii.eqb_spec w w') as [->|N];
    [|split; [discriminate | intros E; inversion E; contradiction]].
  destruct (Ascii.eqb_spec v v') as [->|N];
    [|split; [discriminate | intros E; inversion E; contradiction]].
  tauto.
Qed.

Lemma program_is_same_spec p q : program_is_same p q = true <-> p = q.
Proof.
  revert q; induction p as [|i p IH]; intros [|j q]; simpl;
    try (split; [discriminate | discriminate]); [tauto|].
  destruct (instruction_is_same i j) eqn:E.
  - apply instruction_is_same_spec in E. subst j. rewrite IH.
    split; [intros ->; reflexivity | intros E; inversion E; auto].
  - split; [discriminate|]. intros E'; inversion E'; subst j.
    assert (T : instruction_is_same i i = true)
      by (apply instruction_is_same_spec; auto).
    congruence.
Qed.

Lemma machine_is_same_spec m m' : machine_is_same m m' = true <-> m = m'.
Proof.
  destruct m as [s t p], m' as [s' t' p']; unfold machine_is_same; simpl.
  destruct (is_same_spec s s') as [->|N];
    [|split; [discriminate | intros E; inversion E; contradiction]].
  destruct (tape_is_same t t') eqn:Et.
  - apply tape_is_same_spec in Et. subst t'. rewrite program_is_same_spec.
    split; [intros ->; reflexivity | intros E; inversion E; auto].
  - split; [discriminate|]. intros E; inversion E; subst t'.
    assert (T : tape_is_same t t = true) by (apply tape_is_same_spec; auto).
    congruence.
Qed.

Lemma is_open_In open m : is_open open m = true <-> In m open.
Proof.
  unfold is_open. rewrite existsb_exists. split.
  - intros (x & I & E). apply machine_is_same_spec in E. subst x. exact I.
  - intros I. exists m. split; [exact I | apply machine_is_same_spec; auto].
Qed.

Lemma is_open_cons open m x :
  is_open (x :: open) m = false <-> m <> x /\ is_open open m = false.
Proof.
  rewrite <- !not_true_iff_false, !is_open_In. simpl.
  split; [intros N; split; intros E; apply N; auto|].
  intros [N1 N2] [E|I]; [apply N1; auto | apply N2, I].
Qed.

(** *** One instantiation of [run] *)

Lemma run_in_open open depth m :
  is_open open m = true -> run_in open depth m = ill_formed.
Proof. intros O. destruct depth; simpl; rewrite O; reflexivity. Qed.

Lemma run_in_next open depth m :
  is_open open m = false ->
  run_in open (S depth) m =
  run_helper (run_in (m :: open) depth) m
    (match_instruction (machine_program m) (machine_state m)
       (head (machine_tape m)))
    (cont m (match_instruction (machine_program m) (machine_state m)
               (head (machine_tape m)))).
Proof. intros O. simpl. rewrite O. reflexivity. Qed.

Lemma run_next depth m :
  run (S depth) m =
  run_helper (run_in [m] depth) m
    (match_instruction (machine_program m) (machine_state m)
       (head (machine_tape m)))
    (cont m (match_instruction (machine_program m) (machine_state m)
               (head (machine_tape m)))).
Proof. reflexivity. Qed.

Lemma run_in_halts open depth m :
  is_open open m = false ->
  cont m (match_instruction (machine_program m) (machine_state m)
            (head (machine_tape m))) = false ->
  run_in open (S depth) m = result m.
Proof. intros O C. rewrite run_in_next, C by exact O. reflexivity. Qed.

Lemma run_halts depth m :
  cont m (match_instruction (machine_program m) (machine_state m)
            (head (machine_tape m))) = false ->
  run (S depth) m = result m.
Proof. intros C. rewrite run_next, C. reflexivity. Qed.

Lemma step_halts m :
  cont m (match_instruction (machine_program m) (machine_state m)
            (head (machine_tape m))) = false ->
  step m = None.
Proof. intros C; unfold step; rewrite C; reflexivity. Qed.

Lemma run_in_step open depth m m' :
  is_open open m = false -> step m = Some m' ->
  run_in open (S depth) m = run_in (m :: open) depth m'.
Proof.
  intros O. rewrite run_in_next by exact O. unfold step, run_helper.
  destruct (cont m _); [|discriminate].
  destruct (match_instruction _ _ _) as [i|]; [|discriminate].
  destruct (execute_instruction i (machine_tape m)) as [[s' t']|];
    [|discriminate].
  intros E; inversion E; reflexivity.
Qed.

Lemma run_step depth m m' :
  step m = Some m' -> run (S depth) m = run_in [m] depth m'.
Proof. apply run_in_step. reflexivity. Qed.

Lemma steps_add n k m :
  steps (n + k) m =
  match steps n m with
  | Some m' => steps k m'
  | None => None
  end.
Proof.
  revert m; induction n as [|n IH]; intros m; simpl; [reflexivity|].
  destruct (step m); [apply IH | reflexivity].
Qed.

(** What [run] gives was reached by steps, and has halted. *)
Lemma run_in_result_steps open depth m r :
  run_in open depth m = result r ->
  exists n,
    n < depth /\ steps n m = Some r
    /\ cont r (match_instruction (machine_program r) (machine_state r)
                 (head (machine_tape r))) = false.
Proof.
  revert open m; induction depth as [|depth IH]; intros open m.
  - simpl. destruct (is_open open m); discriminate.
  - destruct (is_open open m) eqn:O; [rewrite run_in_open by exact O; discriminate|].
    destruct (step m) as [m'|] eqn:S1.
    + rewrite (run_in_step _ _ _ _ O S1). intros E.
      destruct (IH _ _ E) as (n & L & St & C).
      exists (S n). split; [lia|]. simpl. rewrite S1. auto.
    + revert S1. rewrite run_in_next by exact O. unfold step, run_helper.
      destruct (cont m _) eqn:C.
      * destruct (match_instruction (machine_program m) _ _) as [i|];
          [|discriminate].
        destruct (execute_instruction i (machine_tape m)) as [[s' t']|];
          discriminate.
      * intros _ E; inversion E; subst r.
        exists 0. split; [lia | split; [reflexivity | exact C]].
Qed.

(** A machine on its way to halting does not come back to where it was. *)
Lemma steps_halted_no_return n k m r :
  steps n m = Some r -> step r = None -> steps (S k) m <> Some m.
Proof.
  intros Sn S0 Sk.
  assert (A : steps (S k + n) m = Some r) by (rewrite steps_add, Sk; exact Sn).
  assert (B : steps (n + S k) m = None)
    by (rewrite steps_add, Sn; simpl; rewrite S0; reflexivity).
  replace (n + S k) with (S k + n) in B by lia. congruence.
Qed.

Lemma steps_halted_run_in n :
  forall open m r,
    steps n m = Some r ->
    cont r (match_instruction (machine_program r) (machine_state r)
              (head (machine_tape r))) = false ->
    (forall k x, k <= n -> steps k m = Some x -> is_open open x = false) ->
    forall d, run_in open (S n + d) m = result r.
Proof.
  induction n as [|n IH]; intros open m r Sn C O d.
  - inversion Sn; subst r. apply run_in_halts; [|exact C].
    apply (O 0 m); [lia | reflexivity].
  - assert (Om : is_open open m = false) by (apply (O 0 m); [lia | reflexivity]).
    pose proof Sn as Sn'. simpl in Sn'.
    destruct (step m) as [m1|] eqn:S1; [|discriminate].
    change (S (S n) + d) with (S (S n + d)).
    rewrite (run_in_step _ _ _ _ Om S1).
    apply IH; [exact Sn' | exact C|].
    intros k x Lk Sk. apply is_open_cons. split.
    + intros ->.
      apply (steps_halted_no_return (S n) k m r Sn (step_halts _ C)).
      simpl. rewrite S1. exact Sk.
    + apply (O (S k) x); [lia|]. simpl. rewrite S1. exact Sk.
Qed.

(** A machine that halts after [n] steps is what [run] gives at every
    depth above [n]. *)
Lemma steps_halted_run n m r :
  steps n m = Some r ->
  cont r (match_instruction (machine_program r) (machine_state r)
            (head (machine_tape r))) = false ->
  forall d, run (S n + d) m = result r.
Proof.
  intros Sn C. apply steps_halted_run_in; [exact Sn | exact C|].
  intros k x _ _. reflexivity.
Qed.

Lemma run_iff_steps depth m r :
  run depth m = result r <->
  exists n,
    n < depth /\ steps n m = Some r
    /\ cont r (match_instruction (machine_program r) (machine_state r)
                 (head (machine_tape r))) = false.
Proof.
  split; [apply run_in_result_steps|].
  intros (n & L & Sn & C).
  replace depth with (S n + (depth - S n)) by lia.
  apply steps_halted_run; assumption.
Qed.

(** A result does not depend on the depth allowed, once it is enough. *)
Lemma run_deeper depth m r :
  run depth m = result r -> forall k, run (depth + k) m = result r.
Proof.
  intros E k. apply run_iff_steps in E. destruct E as (n & L & Sn & C).
  apply run_iff_steps. exists n. split; [lia | auto].
Qed.

(** The machine [run] ends with has halted: no step is left to it, and
    it is final or no instruction matches. *)
Lemma run_result_halted depth m r :
  run depth m = result r ->
  step r = None
  /\ (final (machine_state r) = true
      \/ match_instruction (machine_program r) (machine_state r)
           (head (machine_tape r)) = None).
Proof.
  intros E. apply run_iff_steps in E. destruct E as (n & _ & _ & C).
  split; [apply step_halts, C|].
  unfold cont in C. apply andb_false_iff in C. destruct C as [C|C].
  - left. apply negb_false_iff, C.
  - right. destruct (match_instruction (machine_program r) _ _);
      [discriminate C | reflexivity].
Qed.

(** C1: from a final state [run] gives the machine it was given at its
    first instantiation: state and tape are as they were, it is reported
    as accepted, no step is made, and state, tape and report are the same
    for every program. *)
Theorem run_final_state_accepts s t p (Hfinal : final s = true) :
  (forall depth, run (S depth) (machine s t p) = result (machine s t p))
  /\ step (machine s t p) = None
  /\ halting (machine s t p) = Accepted
  /\ (forall p' depth depth',
      exists r r',
        run (S depth) (machine s t p) = result r
        /\ run (S depth') (machine s t p') = result r'
        /\ machine_state r = s /\ machine_state r' = s
        /\ machine_tape r = t /\ machine_tape r' = t
        /\ halting r = Accepted /\ halting r' = Accepted).
Proof.
  assert (C : forall q,
    cont (machine s t q)
      (match_instruction (machine_program (machine s t q))
         (machine_state (machine s t q))
         (head (machine_tape (machine s t q)))) = false).
  { intros q; unfold cont; simpl. rewrite Hfinal; reflexivity. }
  assert (A : forall q, halting (machine s t q) = Accepted).
  { intros q; unfold halting; simpl. rewrite Hfinal; reflexivity. }
  split; [|split; [|split]].
  - intros depth. apply run_halts, C.
  - apply step_halts, C.
  - apply A.
  - intros p' depth depth'.
    exists (machine s t p), (machine s t p').
    rewrite !run_halts by apply C. rewrite !A. repeat split.
Qed.

(** C3: from a state that is not final, with no instruction matching the
    state and the symbol under the head, [run] gives the machine it was
    given, state and tape as they were, reported as not accepted (stuck);
    this is a result, not a failure of [run]. *)
Theorem run_no_match_stuck s t p
    (Hfinal : final s = false)
    (Hmatch : match_instruction p s (head t) = None) :
  (forall depth, run (S depth) (machine s t p) = result (machine s t p))
  /\ step (machine s t p) = None
  /\ machine_state (machine s t p) = s
  /\ machine_tape (machine s t p) = t
  /\ halting (machine s t p) = Stuck.
Proof.
  assert (C : cont (machine s t p)
      (match_instruction (machine_program (machine s t p))
         (machine_state (machine s t p))
         (head (machine_tape (machine s t p)))) = false).
  { unfold cont; simpl. rewrite Hmatch. apply andb_false_r. }
  repeat split.
  - intros depth. apply run_halts, C.
  - apply step_halts, C.
  - unfold halting; simpl. rewrite Hfinal; reflexivity.
Qed.


(** *** Machines that are reached *)

Lemma run_result_steps depth m r :
  run depth m = result r -> exists n, n < depth /\ steps n m = Some r.
Proof.
  intros E. destruct (run_in_result_steps _ _ _ _ E) as (n & L & St & _).
  exists n. auto.
Qed.

Lemma step_program m m' :
  step m = Some m' -> machine_program m' = machine_program m.
Proof.
  unfold step. destruct (cont m _); [|discriminate].
  destruct (match_instruction (machine_program m) _ _) as [i|];
    [|discriminate].
  destruct (execute_instruction i (machine_tape m)) as [[s' t']|];
    [|discriminate].
  intros E; inversion E; reflexivity.
Qed.

(** A symbol on the tape after a step was on the tape before, or is the
    empty symbol of a cell the move created, or was written, and then it
    is not the wildcard. *)
Lemma step_tape_cells m m' x :
  step m = Some m' ->
  In x (tape_cells (machine_tape m')) ->
  In x (tape_cells (machine_tape m)) \/ x <> wildcard.
Proof.
  unfold step. destruct (cont m _); [|discriminate].
  destruct (match_instruction (machine_program m) _ _) as [i|];
    [|discriminate].
  unfold execute_instruction.
  destruct (move_tape (movement i) (write_tape (machine_tape m) (head_write i)))
    as [t'|] eqn:M; [|discriminate].
  intros E; inversion E; subst m'; simpl. intros I.
  destruct (In_tape_cells_move _ _ _ _ M I) as [I'| ->].
  - destruct (In_tape_cells_write _ _ _ I') as [I''|[-> N]]; auto.
  - right. apply empty_is_not_wildcard.
Qed.

(** C9: the machine with the single instruction (S, '#', S, '#', '0'),
    [S] not final, on a blank tape (the empty symbol under the head is all
    that is used; the tape made from no symbol is such a tape), never
    halts: one step gives the same machine again, so after any number of
    steps the machine is the one started from, not final and with its
    instruction matching, and no halted machine is ever reached: [run]
    has no result whatever the depth allowed.  As the next machine is the
    machine itself, [run] asks for its own [result] before it is
    complete: the instantiation is ill-formed. *)
Theorem run_single_stay_instruction_loops (S0 : State) t
    (Hfinal : final S0 = false) (Hblank : head t = empty) :
  step (machine S0 t [instruction S0 "#" S0 "#" "0"])
    = Some (machine S0 t [instruction S0 "#" S0 "#" "0"])
  /\ (forall n,
      exists m,
        steps n (machine S0 t [instruction S0 "#" S0 "#" "0"]) = Some m
        /\ m = machine S0 t [instruction S0 "#" S0 "#" "0"]
        /\ final (machine_state m) = false
        /\ match_instruction (machine_program m) (machine_state m)
             (head (machine_tape m))
           = Some (instruction S0 "#" S0 "#" "0")
        /\ exists m', step m = Some m')
  /\ (forall n r,
      steps n (machine S0 t [instruction S0 "#" S0 "#" "0"]) = Some r ->
      step r <> None)
  /\ (forall depth r,
      run depth (machine S0 t [instruction S0 "#" S0 "#" "0"]) <> result r)
  /\ (forall depth,
      run (S depth) (machine S0 t [instruction S0 "#" S0 "#" "0"])
      = ill_formed).
Proof.
  set (m0 := machine S0 t [instruction S0 "#" S0 "#" "0"]).
  assert (M : match_instruction (machine_program m0) (machine_state m0)
                (head (machine_tape m0))
              = Some (instruction S0 "#" S0 "#" "0")).
  { unfold match_instruction; simpl. unfold matches; simpl.
    rewrite is_same_refl, Hblank. reflexivity. }
  assert (W : write_tape t "#" = t).
  { destruct t as [l c r]; simpl in Hblank; subst c; reflexivity. }
  assert (S1 : step m0 = Some m0).
  { unfold step, cont. rewrite M. simpl. rewrite Hfinal. simpl.
    unfold execute_instruction; simpl. rewrite W. reflexivity. }
  assert (Sn : forall n, steps n m0 = Some m0).
  { induction n as [|n IH]; simpl; [reflexivity|]. rewrite S1. exact IH. }
  assert (R : forall depth, run (S depth) m0 = ill_formed).
  { intros depth. rewrite (run_step _ _ _ S1). apply run_in_open.
    apply is_open_In. simpl; auto. }
  split; [exact S1 | split; [|split; [|split]]].
  - intros n. exists m0. repeat split; eauto.
  - intros n r E. rewrite Sn in E. inversion E; subst r.
    rewrite S1. discriminate.
  - intros [|depth] r; [discriminate | rewrite R; discriminate].
  - exact R.
Qed.

Lemma steps_keep_wildcard_out n m m' :
  ~ In wildcard (tape_cells (machine_tape m)) ->
  steps n m = Some m' ->
  ~ In wildcard (tape_cells (machine_tape m')).
Proof.
  revert m; induction n as [|n IH]; simpl; intros m F.
  - intros E; inversion E; subst m'; exact F.
  - destruct (step m) as [m1|] eqn:S1; [|discriminate].
    apply IH. intros I.
    destruct (step_tape_cells _ _ _ S1 I) as [I'|N]; auto.
Qed.

(** C10: the wildcard is also the symbol that stands for "do not write", so
    no step writes it: when the tape of a machine holds no wildcard,
    whatever its program, no tape reached from it in any number of steps
    holds one, and neither does the tape [run] ends with. *)
Theorem steps_never_write_wildcard p s t
    (Hfree : ~ In wildcard (tape_cells t)) :
  (forall n m',
      steps n (machine s t p) = Some m' ->
      ~ In wildcard (tape_cells (machine_tape m')))
  /\ (forall depth r,
      run depth (machine s t p) = result r ->
      ~ In wildcard (tape_cells (machine_tape r))).
Proof.
  split.
  - intros n m'. apply steps_keep_wildcard_out. exact Hfree.
  - intros depth r E. destruct (run_result_steps _ _ _ E) as (n & _ & St).
    revert St. apply steps_keep_wildcard_out. exact Hfree.
Qed.

End MachineProperties.

(** ** The input reversal machine *)

Module ReversalProperties.

Import Reversal.

Lemma run_reverse_tape1 :
  run 67 (machine put_right_marker reverse_tape1 reverse_prog)
  = result reversed.
Proof. vm_compute. reflexivity. Qed.

Lemma steps_reverse_tape1 :
  steps 66 (machine put_right_marker reverse_tape1 reverse_prog)
  = Some reversed.
Proof. vm_compute. reflexivity. Qed.

(** C8: the reversal machine, started in [put_right_marker] on the tape
    made from "abaabba", halts (at depth 67 and at every greater one, not
    before) in the final state [end], so it is reported as accepted, and
    the symbols of its tape that are not empty spell "abbaaba", the input
    reversed. *)
Theorem reverse_prog_reverses_abaabba :
  exists r,
    (forall k,
        run (67 + k) (machine put_right_marker reverse_tape1 reverse_prog)
        = result r)
    /\ run 66 (machine put_right_marker reverse_tape1 reverse_prog)
       = unfinished
    /\ machine_state r = end_
    /\ final (machine_state r) = true
    /\ halting r = Accepted
    /\ tape_cells (machine_tape r) = list_ascii_of_string "#abbaaba##"
    /\ non_blank (tape_cells (machine_tape r))
       = list_ascii_of_string "abbaaba"
    /\ non_blank (tape_cells (machine_tape r))
       = rev (non_blank (tape_cells reverse_tape1)).
Proof.
  exists reversed.
  split; [apply run_deeper; exact run_reverse_tape1|].
  split; [vm_compute; reflexivity|].
  repeat split.
Qed.

(** *** The theorems above, on the reversal machine *)

Lemma match_instruction_first_qualifying_witness :
  match_instruction reverse_prog go_right_a "|"
  = Some (instruction go_right_a "|" take_right "a" "L").
Proof.
  destruct (match_instruction_first_qualifying reverse_prog go_right_a "|")
    as (_ & _ & _ & _ & First).
  apply (First (firstn 7 reverse_prog)
           (instruction go_right_a "|" take_right "a" "L")
           (skipn 8 reverse_prog)
           (instruction go_right_a "?" go_right_a "?" "R")).
  - reflexivity.
  - split; [reflexivity | left; reflexivity].
  - intros k I [Qs Qc]; simpl in I.
    repeat (destruct I as [<-|I]; [discriminate Qs|]). exact I.
  - simpl; auto.
  - split; [reflexivity | right; reflexivity].
Defined.

Lemma run_final_state_accepts_witness :
  run 1 (machine end_ reverse_tape1 reverse_prog)
  = result (machine end_ reverse_tape1 reverse_prog)
  /\ halting (machine end_ reverse_tape1 reverse_prog) = Accepted.
Proof.
  assert (F : final end_ = true) by reflexivity.
  destruct (run_final_state_accepts end_ reverse_tape1 reverse_prog F)
    as (R & _ & A & _).
  split; [apply (R 0) | exact A].
Defined.

Lemma run_no_match_stuck_witness :
  run 1 (machine take_left (make_tape []) reverse_prog)
  = result (machine take_left (make_tape []) reverse_prog)
  /\ halting (machine take_left (make_tape []) reverse_prog) = Stuck.
Proof.
  assert (F : final take_left = false) by reflexivity.
  assert (M : match_instruction reverse_prog take_left (head (make_tape []))
              = None) by reflexivity.
  destruct (run_no_match_stuck take_left (make_tape []) reverse_prog F M)
    as (R & _ & _ & _ & St).
  split; [apply (R 0) | exact St].
Defined.

Lemma run_single_stay_instruction_loops_witness :
  run 1000 (machine rewind (make_tape []) [instruction rewind "#" rewind "#" "0"])
  = ill_formed
  /\ steps 1000
       (machine rewind (make_tape []) [instruction rewind "#" rewind "#" "0"])
     <> None.
Proof.
  assert (F : final rewind = false) by reflexivity.
  assert (B : head (make_tape []) = empty) by reflexivity.
  destruct (run_single_stay_instruction_loops rewind (make_tape []) F B)
    as (_ & Sn & _ & _ & R).
  split; [exact (R 999)|].
  destruct (Sn 1000) as (m & E & _). rewrite E. discriminate.
Defined.

Lemma steps_never_write_wildcard_witness :
  steps 66 (machine put_right_marker reverse_tape1 reverse_prog)
  = Some reversed
  /\ ~ In wildcard (tape_cells (machine_tape reversed)).
Proof.
  assert (Free : ~ In wildcard (tape_cells reverse_tape1)).
  { cbv. intuition discriminate. }
  destruct (steps_never_write_wildcard reverse_prog put_right_marker
              reverse_tape1 Free) as [St _].
  split; [exact steps_reverse_tape1|].
  exact (St 66 reversed steps_reverse_tape1).
Defined.

End ReversalProperties.

(** * Further properties of the machine *)

Lemma length_tape_cells (t : Tape) :
  length (tape_cells t) = length (cells (left t)) + S (length (cells (right t))).
Proof.
  unfold tape_cells. rewrite length_app, length_rev. reflexivity.
Qed.

Lemma length_tape_cells_write (t : Tape) (C : ascii) :
  length (tape_cells (write_tape t C)) = length (tape_cells t).
Proof.
  unfold write_tape. destruct (Ascii.eqb C wildcard); [reflexivity|].
  rewrite !length_tape_cells. reflexivity.
Qed.

Lemma length_tape_cells_move (Dir : ascii) (t t' : Tape) :
  move_tape Dir t = Some t' ->
  length (tape_cells t) <= length (tape_cells t') <= S (length (tape_cells t)).
Proof.
  unfold move_tape.
  destruct (Ascii.eqb Dir "L"); [|destruct (Ascii.eqb Dir "R");
    [|destruct (Ascii.eqb Dir "0")]]; intros E; inversion E; subst t'.
  - rewrite tape_cells_move_left. destruct (left t); simpl; lia.
  - rewrite tape_cells_move_right. destruct (right t); [|lia].
    rewrite length_app; simpl; lia.
  - lia.
Qed.

Lemma same_tape_move_tape (Dir : ascii) (t u t' : Tape) :
  same_tape t u -> move_tape Dir t = Some t' ->
  exists u', move_tape Dir u = Some u' /\ same_tape t' u'.
Proof.
  unfold move_tape. intros E.
  destruct (Ascii.eqb Dir "L"); [|destruct (Ascii.eqb Dir "R");
    [|destruct (Ascii.eqb Dir "0")]]; intros M; inversion M; subst t'.
  - eexists; split; [reflexivity | apply same_tape_move_left, E].
  - eexists; split; [reflexivity | apply same_tape_move_right, E].
  - eexists; split; [reflexivity | exact E].
Qed.

(** *** Two tapes with the same content, cell by cell *)

Lemma same_stack_length (a b : Stack) :
  same_stack a b -> length (cells a) = length (cells b) -> a = b.
Proof.
  revert b; induction a as [|h a IH]; intros [|h' b] E L; simpl in L;
    try discriminate; [reflexivity|].
  f_equal.
  - exact (E 0).
  - apply IH; [intros n; exact (E (S n)) | lia].
Qed.

Lemma closer_refl (d : Z) : closer d d.
Proof. unfold closer; lia. Qed.

Lemma closer_trans (d1 d2 d3 : Z) : closer d1 d2 -> closer d2 d3 -> closer d1 d3.
Proof. unfold closer; lia. Qed.

Lemma closer_abs (d d' : Z) :
  closer d d' ->
  (Z.abs d' <= Z.abs d)%Z /\ (Z.abs d' = Z.abs d -> d' = d).
Proof. unfold closer; lia. Qed.

Lemma gap_pop (a b : Stack) : closer (gap a b) (gap (pop a) (pop b)).
Proof.
  unfold gap, closer, pop.
  destruct a, b; cbn [tail cells length]; lia.
Qed.

Lemma gap_push (c c' : ascii) (a b : Stack) :
  gap (push c a) (push c' b) = gap a b.
Proof. unfold gap, push. cbn [cells length]. lia. Qed.

Lemma gap_same (a b b' : Stack) :
  same_stack b b' -> gap a b = gap a b' -> b = b'.
Proof.
  intros E G. apply same_stack_length; [exact E|]. unfold gap in G. lia.
Qed.

Lemma left_write_tape (t : Tape) (C : ascii) : left (write_tape t C) = left t.
Proof. unfold write_tape. destruct (Ascii.eqb C wildcard); reflexivity. Qed.

Lemma right_write_tape (t : Tape) (C : ascii) :
  right (write_tape t C) = right t.
Proof. unfold write_tape. destruct (Ascii.eqb C wildcard); reflexivity. Qed.

(** The same move on two tapes takes the cells created on one and not on
    the other no further apart. *)
Lemma gap_move_tape (Dir : ascii) (t u t' u' : Tape) :
  move_tape Dir t = Some t' -> move_tape Dir u = Some u' ->
  closer (gap (left t) (left u)) (gap (left t') (left u'))
  /\ closer (gap (right t) (right u)) (gap (right t') (right u')).
Proof.
  unfold move_tape.
  destruct (Ascii.eqb Dir "L"); [|destruct (Ascii.eqb Dir "R");
    [|destruct (Ascii.eqb Dir "0")]]; intros E1 E2;
    inversion E1; inversion E2; subst t' u'.
  - unfold move_left. cbn [left right]. rewrite gap_push.
    split; [apply gap_pop | apply closer_refl].
  - unfold move_right. cbn [left right]. rewrite gap_push.
    split; [apply closer_refl | apply gap_pop].
  - split; apply closer_refl.
Qed.

Section MachineFurther.

Context {State : Type} `{States State}.

Implicit Types (s : State) (c : ascii) (t u : Tape).
Implicit Types (i j w : Instruction State) (p q : Program State).
Implicit Types (m r : Machine State).

(** *** What a step is made of *)

Lemma step_inv m m' :
  step m = Some m' ->
  exists i t',
    final (machine_state m) = false
    /\ match_instruction (machine_program m) (machine_state m)
         (head (machine_tape m)) = Some i
    /\ move_tape (movement i) (write_tape (machine_tape m) (head_write i))
       = Some t'
    /\ m' = machine (to_state i) t' (machine_program m).
Proof.
  unfold step, cont.
  destruct (match_instruction (machine_program m) _ _) as [i|] eqn:M;
    [|rewrite andb_false_r; discriminate].
  destruct (final (machine_state m)) eqn:F; [discriminate|]. simpl.
  unfold execute_instruction.
  destruct (move_tape _ _) as [t'|] eqn:V; [|discriminate].
  intros E; inversion E. exists i, t'. repeat split; auto.
Qed.

Lemma step_intro m i t' :
  final (machine_state m) = false ->
  match_instruction (machine_program m) (machine_state m)
    (head (machine_tape m)) = Some i ->
  move_tape (movement i) (write_tape (machine_tape m) (head_write i))
    = Some t' ->
  step m = Some (machine (to_state i) t' (machine_program m)).
Proof.
  intros F M V. unfold step, cont, execute_instruction.
  rewrite M, F, V. reflexivity.
Qed.

Lemma match_instruction_In p s c i :
  match_instruction p s c = Some i -> In i p /\ qualifies s c i.
Proof.
  intros E. destruct (match_helper_Some _ _ _ _ E) as (b & a & -> & Q & _).
  split; [apply in_elt | exact Q].
Qed.

Lemma steps_program n m m' :
  steps n m = Some m' -> machine_program m' = machine_program m.
Proof.
  revert m; induction n as [|n IH]; simpl; intros m.
  - intros E; inversion E; reflexivity.
  - destruct (step m) as [m1|] eqn:S1; [|discriminate].
    intros E. rewrite (IH _ E). apply step_program, S1.
Qed.

(** X1: what [run] gives is a machine that has halted: given to [run]
    again it comes back at once, no step is left to it, and when it is
    reported as not accepted no instruction matches its state and the
    symbol under its head. *)
Theorem run_result_runs_no_more depth m r (Hrun : run depth m = result r) :
  (forall depth', run (S depth') r = result r)
  /\ step r = None
  /\ (halting r = Stuck ->
      match_instruction (machine_program r) (machine_state r)
        (head (machine_tape r)) = None).
Proof.
  destruct (run_result_halted _ _ _ Hrun) as [S0 Why].
  assert (C : cont r (match_instruction (machine_program r) (machine_state r)
                        (head (machine_tape r))) = false).
  { unfold cont. destruct Why as [F|M].
    - rewrite F; reflexivity.
    - rewrite M. apply andb_false_r. }
  split; [|split].
  - intros depth'. apply run_halts, C.
  - exact S0.
  - unfold halting. destruct Why as [F|M]; [rewrite F; discriminate | auto].
Qed.

(** X2: the program is never changed: the machine [run] ends with, and
    every machine met on the way, has the program of the first one. *)
Theorem run_keeps_program m :
  (forall depth r, run depth m = result r ->
     machine_program r = machine_program m)
  /\ (forall n m', steps n m = Some m' ->
     machine_program m' = machine_program m).
Proof.
  split.
  - intros depth r E. destruct (run_result_steps _ _ _ E) as (n & _ & St).
    apply (steps_program _ _ _ St).
  - intros n m'. apply steps_program.
Qed.

(** X3: no cell of the tape is ever removed, and a step creates at most
    one: after [n] steps the tape shows at least as many cells as before
    and at most [n] more. *)
Theorem steps_tape_grows n m m' (Hsteps : steps n m = Some m') :
  length (tape_cells (machine_tape m))
    <= length (tape_cells (machine_tape m'))
    <= length (tape_cells (machine_tape m)) + n.
Proof.
  revert m Hsteps; induction n as [|n IH]; simpl; intros m.
  - intros E; inversion E; lia.
  - destruct (step m) as [m1|] eqn:S1; [|discriminate].
    intros E. specialize (IH _ E).
    destruct (step_inv _ _ S1) as (i & t' & _ & _ & M & ->).
    apply length_tape_cells_move in M.
    rewrite length_tape_cells_write in M. simpl in IH. lia.
Qed.

(** *** When [run] is ill-formed *)

Lemma steps_past_halt n k m r :
  steps n m = Some r -> step r = None -> n < k -> steps k m = None.
Proof.
  intros Sn S0 L. replace k with (n + S (k - S n)) by lia.
  rewrite steps_add, Sn. simpl. rewrite S0. reflexivity.
Qed.

Lemma steps_sub n k m m1 :
  k <= n -> steps k m = Some m1 -> steps n m = steps (n - k) m1.
Proof.
  intros L Sk. replace n with (k + (n - k)) at 1 by lia.
  rewrite steps_add, Sk. reflexivity.
Qed.

(** [run] is ill-formed when the machine comes to one whose [run] is not
    complete, one of [open] or one it has been through, or to one that
    continues with an instruction that cannot be executed. *)
Lemma run_in_ill_formed open depth m :
  run_in open depth m = ill_formed <->
  exists n m1,
    steps n m = Some m1
    /\ ((n <= depth
         /\ (In m1 open \/ exists k, k < n /\ steps k m = Some m1))
        \/ (n < depth
            /\ cont m1 (match_instruction (machine_program m1)
                          (machine_state m1) (head (machine_tape m1))) = true
            /\ step m1 = None)).
Proof.
  split.
  - revert open m; induction depth as [|depth IH]; intros open m.
    + simpl. destruct (is_open open m) eqn:O; [|discriminate].
      intros _. exists 0, m. split; [reflexivity|]. left. split; [lia|].
      left. apply is_open_In, O.
    + destruct (is_open open m) eqn:O.
      * intros _. exists 0, m. split; [reflexivity|]. left. split; [lia|].
        left. apply is_open_In, O.
      * destruct (step m) as [m'|] eqn:S1.
        -- rewrite (run_in_step _ _ _ _ O S1). intros E.
           destruct (IH _ _ E)
             as (n & m1 & Sn & [[L [I|(k & Lk & Sk)]] | (L & C & S0)]).
           ++ destruct I as [<- | I].
              ** exists (S n), m. split; [simpl; rewrite S1; exact Sn|].
                 left. split; [lia|]. right. exists 0.
                 split; [lia | reflexivity].
              ** exists (S n), m1. split; [simpl; rewrite S1; exact Sn|].
                 left. split; [lia|]. left. exact I.
           ++ exists (S n), m1. split; [simpl; rewrite S1; exact Sn|].
              left. split; [lia|]. right. exists (S k).
              split; [lia|]. simpl. rewrite S1. exact Sk.
           ++ exists (S n), m1. split; [simpl; rewrite S1; exact Sn|].
              right. split; [lia | auto].
        -- rewrite run_in_next by exact O. unfold run_helper.
           destruct (cont m _) eqn:C; [|discriminate].
           intros _. exists 0, m. split; [reflexivity|]. right.
           split; [lia | split; [exact C | exact S1]].
  - intros (n & m1 & Sn & Why). revert open depth m Sn Why.
    induction n as [|n IH]; intros open depth m Sn Why.
    + inversion Sn; subst m1.
      destruct Why as [[_ [I|(k & Lk & _)]] | (L & C & S0)].
      * apply run_in_open, is_open_In, I.
      * lia.
      * destruct (is_open open m) eqn:O; [apply run_in_open, O|].
        destruct depth as [|depth]; [lia|].
        rewrite run_in_next by exact O. revert S0. unfold step, run_helper.
        rewrite C.
        destruct (match_instruction (machine_program m) _ _) as [i|];
          [|reflexivity].
        destruct (execute_instruction i (machine_tape m)) as [[s' t']|];
          [discriminate | reflexivity].
    + destruct (is_open open m) eqn:O; [apply run_in_open, O|].
      simpl in Sn. destruct (step m) as [m'|] eqn:S1; [|discriminate].
      destruct depth as [|depth]; [destruct Why as [[L _]|[L _]]; lia|].
      rewrite (run_in_step _ _ _ _ O S1). apply IH; [exact Sn|].
      destruct Why as [[L [I|(k & Lk & Sk)]] | (L & C & S0)].
      * left. split; [lia|]. left. right. exact I.
      * left. split; [lia|]. destruct k as [|k].
        -- inversion Sk. left. left. reflexivity.
        -- right. exists k. split; [lia|]. simpl in Sk.
           rewrite S1 in Sk. exact Sk.
      * right. split; [lia | auto].
Qed.

(** Once ill-formed, no depth gives a result. *)
Lemma run_ill_formed_no_result depth m :
  run depth m = ill_formed -> forall depth' r, run depth' m <> result r.
Proof.
  intros E depth' r R.
  apply run_in_ill_formed in E. destruct E as (n & m1 & Sn & Why).
  apply run_iff_steps in R. destruct R as (n' & _ & Sr & C).
  pose proof (step_halts _ C) as S0.
  destruct Why as [[_ [[]|(k & Lk & Sk)]] | (_ & C1 & S1)].
  - destruct (Nat.le_gt_cases k n') as [L|L].
    + rewrite (steps_sub n' k m m1 L Sk) in Sr.
      rewrite (steps_sub n k m m1) in Sn by (lia || exact Sk).
      destruct (n - k) as [|j] eqn:J; [lia|].
      exact (steps_halted_no_return _ j m1 r Sr S0 Sn).
    + rewrite (steps_past_halt n' k m r Sr S0 L) in Sk. discriminate.
  - destruct (Nat.lt_trichotomy n n') as [L|[L|L]].
    + rewrite (steps_past_halt n n' m m1 Sn S1 L) in Sr. discriminate.
    + subst n'. rewrite Sn in Sr. inversion Sr; subst m1. congruence.
    + rewrite (steps_past_halt n' n m r Sr S0 L) in Sn. discriminate.
Qed.

(** *** The same machine on two tapes with the same content *)

Lemma step_same_tape p s t u m1 :
  same_tape t u -> step (machine s t p) = Some m1 ->
  exists u1,
    step (machine s u p) = Some (machine (machine_state m1) u1 p)
    /\ same_tape (machine_tape m1) u1
    /\ machine_program m1 = p
    /\ closer (gap (left t) (left u))
         (gap (left (machine_tape m1)) (left u1))
    /\ closer (gap (right t) (right u))
         (gap (right (machine_tape m1)) (right u1)).
Proof.
  intros E S1.
  destruct (step_inv _ _ S1) as (i & t' & F & M & V & ->).
  cbn [machine_state machine_tape machine_program] in *.
  destruct (same_tape_move_tape _ _ (write_tape u (head_write i)) _
              (same_tape_write t u (head_write i) E) V) as (u1 & V' & E1).
  exists u1. split; [|split; [exact E1 | split; [reflexivity|]]].
  - apply (step_intro (machine s u p) i u1); cbn [machine_state machine_tape
      machine_program]; [exact F | | exact V'].
    destruct E as (Eh & _). rewrite <- Eh. exact M.
  - pose proof (gap_move_tape _ _ _ _ _ V V') as G.
    rewrite !left_write_tape, !right_write_tape in G. exact G.
Qed.

Lemma step_same_tape_none p s t u :
  same_tape t u -> step (machine s t p) = None ->
  step (machine s u p) = None.
Proof.
  intros E S1. destruct (step (machine s u p)) as [m1|] eqn:S2; [|reflexivity].
  destruct (step_same_tape p s u t m1 (same_tape_sym _ _ E) S2)
    as (t1 & St & _). congruence.
Qed.

Lemma steps_same_tape p n :
  forall s t u m',
    same_tape t u -> steps n (machine s t p) = Some m' ->
    exists u',
      steps n (machine s u p) = Some (machine (machine_state m') u' p)
      /\ same_tape (machine_tape m') u'
      /\ machine_program m' = p
      /\ closer (gap (left t) (left u))
           (gap (left (machine_tape m')) (left u'))
      /\ closer (gap (right t) (right u))
           (gap (right (machine_tape m')) (right u')).
Proof.
  induction n as [|n IH]; intros s t u m' E Sn.
  - inversion Sn; subst m'. exists u.
    repeat split; try apply E; apply closer_refl.
  - cbn [steps] in Sn.
    destruct (step (machine s t p)) as [m1|] eqn:S1; [|discriminate].
    destruct (step_same_tape p s t u m1 E S1) as (u1 & S2 & E1 & P1 & L1 & R1).
    destruct m1 as [s1 t1 p1];
      cbn [machine_state machine_tape machine_program] in *; subst p1.
    destruct (IH s1 t1 u1 m' E1 Sn) as (u' & Su & E' & P' & L' & R').
    exists u'. cbn [steps]. rewrite S2.
    split; [exact Su | split; [exact E' | split; [exact P' | split]]].
    + exact (closer_trans _ _ _ L1 L').
    + exact (closer_trans _ _ _ R1 R').
Qed.

(** A machine that comes back to where it was comes back on every tape
    with the same content too, once the cells it goes over are there. *)
Lemma same_tape_return p s t n :
  steps (S n) (machine s t p) = Some (machine s t p) ->
  forall (far : nat) u,
    same_tape t u ->
    (Z.abs (gap (left t) (left u)) + Z.abs (gap (right t) (right u))
     <= Z.of_nat far)%Z ->
    exists a b x,
      a < b
      /\ steps a (machine s u p) = Some x
      /\ steps b (machine s u p) = Some x.
Proof.
  intros Back. induction far as [|far IH]; intros u E Far;
    destruct (steps_same_tape p (S n) s t u _ E Back)
      as (u2 & S2 & E2 & _ & CL & CR);
    cbn [machine_state machine_tape] in S2, E2, CL, CR;
    destruct (closer_abs _ _ CL) as [AL EL];
    destruct (closer_abs _ _ CR) as [AR ER];
    destruct (Z.eq_dec
                (Z.abs (gap (left t) (left u2))
                 + Z.abs (gap (right t) (right u2)))
                (Z.abs (gap (left t) (left u))
                 + Z.abs (gap (right t) (right u)))) as [Same|Less];
    try lia.
  1, 2: assert (U : u2 = u);
    [ assert (E3 : same_tape u2 u)
        by (apply same_tape_trans with t;
            [apply same_tape_sym, E2 | exact E]);
      destruct E3 as (Eh & El & Er);
      assert (GL : gap (left t) (left u2) = gap (left t) (left u))
        by (apply EL; lia);
      assert (GR : gap (right t) (right u2) = gap (right t) (right u))
        by (apply ER; lia);
      apply (gap_same _ _ _ El) in GL; apply (gap_same _ _ _ Er) in GR;
      destruct u2, u; cbn [left head right] in *; congruence
    | exists 0, (S n), (machine s u p);
      split; [lia | split; [reflexivity | rewrite S2, U; reflexivity]] ].
  destruct (IH u2 E2) as (a & b & x & L & Sa & Sb); [lia|].
  exists (S n + a), (S n + b), x.
  split; [lia | split; rewrite steps_add, S2; assumption].
Qed.

(** X4: cells that were never created cannot be told from empty ones:
    from two tapes with the same content, in the same state and with the
    same program, the machine makes the same steps, through the same
    states and tapes with the same content, and a result [run] gives on
    one it gives on the other, at the same depth.  Where [run] is
    ill-formed on one it is ill-formed on the other, at some depth (a
    cell that is there on one tape may have to be created on the other
    before the machine comes back to where it was), and no depth gives a
    result; where [run] has no result on one it has none on the other. *)
Theorem same_tape_runs_alike p s t u (Hsame : same_tape t u) :
  (forall n m',
      steps n (machine s t p) = Some m' ->
      exists u',
        steps n (machine s u p) = Some (machine (machine_state m') u' p)
        /\ same_tape (machine_tape m') u')
  /\ (forall depth r,
      run depth (machine s t p) = result r ->
      exists u',
        run depth (machine s u p) = result (machine (machine_state r) u' p)
        /\ same_tape (machine_tape r) u')
  /\ (forall depth,
      run depth (machine s t p) = ill_formed ->
      (exists depth', run depth' (machine s u p) = ill_formed)
      /\ forall depth' r', run depth' (machine s u p) <> result r')
  /\ (forall depth,
      (forall r, run depth (machine s t p) <> result r) ->
      forall r', run depth (machine s u p) <> result r').
Proof.
  assert (Sts : forall n s t u, same_tape t u ->
    forall m', steps n (machine s t p) = Some m' ->
    exists u', steps n (machine s u p) = Some (machine (machine_state m') u' p)
               /\ same_tape (machine_tape m') u').
  { clear s t u Hsame. intros n s t u E m' Sn.
    destruct (steps_same_tape p n s t u m' E Sn) as (u' & Su & E' & _).
    exists u'. auto. }
  assert (Rs : forall depth s t u, same_tape t u ->
    forall r, run depth (machine s t p) = result r ->
    exists u', run depth (machine s u p)
               = result (machine (machine_state r) u' p)
               /\ same_tape (machine_tape r) u').
  { clear s t u Hsame. intros depth s t u E r R.
    apply run_iff_steps in R. destruct R as (n & L & Sn & C).
    destruct (Sts n s t u E r Sn) as (u' & Su & E').
    exists u'. split; [|exact E'].
    apply run_iff_steps. exists n. split; [exact L | split; [exact Su|]].
    pose proof (steps_program _ _ _ Sn) as P. simpl in P.
    revert C. unfold cont; simpl. rewrite P.
    destruct E' as (Eh & _). rewrite Eh. auto. }
  assert (Ill : forall depth,
    run depth (machine s t p) = ill_formed ->
    exists depth', run depth' (machine s u p) = ill_formed).
  { intros depth E. apply run_in_ill_formed in E.
    destruct E as (n & m1 & Sn & [[L [[]|(k & Lk & Sk)]] | (L & C & S0)]).
    - pose proof (steps_program _ _ _ Sk) as P1.
      destruct m1 as [s1 t1 p1]; cbn [machine_program] in P1; subst p1.
      rewrite (steps_sub n k _ _ (Nat.lt_le_incl _ _ Lk) Sk) in Sn.
      destruct (n - k) as [|j] eqn:J; [lia|].
      destruct (Sts k s t u Hsame _ Sk) as (u1 & Su & E1).
      cbn [machine_state machine_tape] in Su, E1.
      destruct (same_tape_return p s1 t1 j Sn
                  (Z.to_nat (Z.abs (gap (left t1) (left u1))
                             + Z.abs (gap (right t1) (right u1)))) u1 E1)
        as (a & b & x & Lab & Sa & Sb); [lia|].
      exists (k + b). apply run_in_ill_formed. exists (k + b), x.
      split; [rewrite steps_add, Su; exact Sb|].
      left. split; [lia|]. right. exists (k + a).
      split; [lia | rewrite steps_add, Su; exact Sa].
    - pose proof (steps_program _ _ _ Sn) as P1.
      destruct (Sts n s t u Hsame _ Sn) as (u1 & Su & E1).
      destruct m1 as [s1 t1 p1];
        cbn [machine_state machine_tape machine_program] in *; subst p1.
      exists (S n). apply run_in_ill_formed.
      exists n, (machine s1 u1 p). split; [exact Su|]. right.
      split; [lia | split].
      + revert C. unfold cont; simpl. destruct E1 as (Eh & _).
        rewrite Eh. auto.
      + apply (step_same_tape_none p s1 t1 u1 E1 S0). }
  split; [|split; [|split]].
  - intros n. apply Sts, Hsame.
  - intros depth. apply Rs, Hsame.
  - intros depth E. split; [apply (Ill depth E)|].
    intros depth' r' R.
    destruct (Rs depth' s u t (same_tape_sym _ _ Hsame) r' R) as (t' & R' & _).
    exact (run_ill_formed_no_result _ _ E _ _ R').
  - intros depth N r' R.
    destruct (Rs depth s u t (same_tape_sym _ _ Hsame) r' R) as (t' & R' & _).
    exact (N _ R').
Qed.

(** X5: a symbol on a tape that is reached was on the tape at the start,
    or is the empty symbol, or is the write symbol, other than the
    wildcard, of an instruction of the program. *)
Theorem steps_symbols_origin n m m' x
    (Hsteps : steps n m = Some m')
    (Hin : In x (tape_cells (machine_tape m'))) :
  In x (tape_cells (machine_tape m))
  \/ x = empty
  \/ (x <> wildcard
      /\ exists i, In i (machine_program m) /\ head_write i = x).
Proof.
  revert m Hsteps; induction n as [|n IH]; simpl; intros m.
  - intros E; inversion E; subst m'. auto.
  - destruct (step m) as [m1|] eqn:S1; [|discriminate].
    intros E. rewrite <- (step_program _ _ S1).
    destruct (IH _ E) as [I|[I|I]]; auto.
    destruct (step_inv _ _ S1) as (i & t' & _ & M & V & ->). simpl in *.
    destruct (In_tape_cells_move _ _ _ _ V I) as [I'| ->]; auto.
    destruct (In_tape_cells_write _ _ _ I') as [I''|[-> N]]; auto.
    right; right. split; [exact N|].
    exists i. split; [apply (match_instruction_In _ _ _ _ M) | reflexivity].
Qed.

Lemma match_helper_app s c p q :
  match_helper s c (p ++ q) =
  match match_helper s c p with
  | Some i => Some i
  | None => match_helper s c q
  end.
Proof.
  induction p as [|First Rest IH]; simpl; [reflexivity|].
  destruct (matches s c First); [reflexivity | exact IH].
Qed.

(** X6: instructions added at the end of a program are looked at only
    when none of the program matches; so the steps the machine makes, and
    a run that ends in a final state, are the same with the longer
    program. *)
Theorem program_extended_at_end p q s t :
  (forall c,
      match_instruction (p ++ q) s c =
      match match_instruction p s c with
      | Some i => Some i
      | None => match_instruction q s c
      end)
  /\ (forall n m',
      steps n (machine s t p) = Some m' ->
      steps n (machine s t (p ++ q))
      = Some (machine (machine_state m') (machine_tape m') (p ++ q)))
  /\ (forall depth r,
      run depth (machine s t p) = result r ->
      final (machine_state r) = true ->
      run depth (machine s t (p ++ q))
      = result (machine (machine_state r) (machine_tape r) (p ++ q))).
Proof.
  assert (St : forall s t m1, step (machine s t p) = Some m1 ->
    step (machine s t (p ++ q))
    = Some (machine (machine_state m1) (machine_tape m1) (p ++ q))
    /\ machine_program m1 = p).
  { clear s t. intros s t m1 S1.
    destruct (step_inv _ _ S1) as (i & t' & F & M & V & ->). simpl in *.
    split; [|reflexivity].
    apply (step_intro (machine s t (p ++ q)) i t'); simpl; auto.
    unfold match_instruction in *. rewrite match_helper_app, M. reflexivity. }
  split; [|split].
  - intros c. apply match_helper_app.
  - intros n. revert s t. induction n as [|n IH]; simpl; intros s t m'.
    + intros E; inversion E; reflexivity.
    + destruct (step (machine s t p)) as [m1|] eqn:S1; [|discriminate].
      destruct (St _ _ _ S1) as [S2 P1]. rewrite S2.
      destruct m1 as [s1 t1 p1]; simpl in *; subst p1. apply IH.
  - intros depth r E Fin.
    destruct (run_result_steps _ _ _ E) as (n & L & Sn).
    destruct (run_result_halted _ _ _ E) as [_ _].
    assert (Sq : steps n (machine s t (p ++ q))
                 = Some (machine (machine_state r) (machine_tape r) (p ++ q))).
    { revert Sn. clear E L. revert s t.
      induction n as [|n IH]; simpl; intros s t.
      - intros E; inversion E; reflexivity.
      - destruct (step (machine s t p)) as [m1|] eqn:S1; [|discriminate].
        destruct (St _ _ _ S1) as [S2 P1]. rewrite S2.
        destruct m1 as [s1 t1 p1]; simpl in *; subst p1. apply IH. }
    replace depth with (S n + (depth - S n)) by lia.
    apply (steps_halted_run _ _ _ Sq).
    unfold cont; simpl. rewrite Fin. reflexivity.
Qed.

(** X7: an instruction that reads the wildcard hides every instruction
    for its state that comes after it: in that state the match is found
    at the wildcard instruction or before it, whatever follows, and an
    instruction for that state that only follows is never the match. *)
Theorem wildcard_hides_later_instructions before w after
    (Hw : head_read w = wildcard) :
  (forall c,
      match_instruction (before ++ w :: after) (from_state w) c
      = match_instruction (before ++ [w]) (from_state w) c)
  /\ (forall c,
      exists k, match_instruction (before ++ w :: after) (from_state w) c
                = Some k /\ In k (before ++ [w]))
  /\ (forall j s c,
      from_state j = from_state w ->
      ~ In j (before ++ [w]) ->
      match_instruction (before ++ w :: after) s c <> Some j).
Proof.
  assert (M : forall c, matches (from_state w) c w = true).
  { intros c. apply matches_qualifies. split; auto. }
  assert (E : forall c,
    match_instruction (before ++ w :: after) (from_state w) c
    = match_instruction (before ++ [w]) (from_state w) c).
  { intros c. unfold match_instruction. rewrite !match_helper_app. simpl.
    rewrite M. reflexivity. }
  assert (K : forall c,
    exists k, match_instruction (before ++ [w]) (from_state w) c = Some k
              /\ In k (before ++ [w])).
  { intros c.
    destruct (match_instruction (before ++ [w]) (from_state w) c)
      as [k|] eqn:Ek.
    - exists k. split; [reflexivity|]. apply (match_instruction_In _ _ _ _ Ek).
    - exfalso. unfold match_instruction in Ek.
      rewrite match_helper_app in Ek. simpl in Ek. rewrite M in Ek.
      destruct (match_helper (from_state w) c before); discriminate. }
  split; [exact E | split].
  - intros c. rewrite E. apply K.
  - intros j s c Fj Nj Ej.
    destruct (match_instruction_In _ _ _ _ Ej) as [_ [Fs _]].
    assert (Es : s = from_state w) by congruence.
    rewrite Es, E in Ej. destruct (K c) as (k & Ek & Ik).
    rewrite Ek in Ej. inversion Ej; subst k. contradiction.
Qed.

(** X8: with a program whose instructions all move by ['L'], ['R'] or
    ['0'], every instruction matched can be executed: a machine that
    continues has a next machine, and [run] is ill-formed only by coming
    back, within the depth allowed, to a machine it has been through. *)
Theorem run_known_movements_return p
    (Hmoves : forall i, In i p ->
       movement i = "L" \/ movement i = "R" \/ movement i = "0") :
  (forall s t,
      cont (machine s t p) (match_instruction p s (head t)) = true ->
      exists m', step (machine s t p) = Some m')
  /\ (forall depth s t,
      run depth (machine s t p) = ill_formed <->
      exists k n m1,
        k < n /\ n <= depth
        /\ steps k (machine s t p) = Some m1
        /\ steps n (machine s t p) = Some m1).
Proof.
  assert (Next : forall s t,
    cont (machine s t p) (match_instruction p s (head t)) = true ->
    exists m', step (machine s t p) = Some m').
  { intros s t C. unfold step; simpl. rewrite C. revert C. unfold cont.
    destruct (match_instruction p s (head t)) as [i|] eqn:M;
      [|rewrite andb_false_r; discriminate].
    intros _. unfold execute_instruction, move_tape.
    destruct (Hmoves i (proj1 (match_instruction_In _ _ _ _ M)))
      as [-> | [-> | ->]]; simpl; eauto. }
  split; [exact Next|].
  intros depth s t. unfold run. rewrite run_in_ill_formed. split.
  - intros (n & m1 & Sn & [[L [[]|(k & Lk & Sk)]] | (_ & C & S0)]).
    + exists k, n, m1. auto.
    + pose proof (steps_program _ _ _ Sn) as P. simpl in P.
      destruct m1 as [s1 t1 p1]; simpl in *; subst p1.
      destruct (Next s1 t1 C) as (m' & S1). congruence.
  - intros (k & n & m1 & Lk & L & Sk & Sn).
    exists n, m1. split; [exact Sn|]. left. split; [exact L|].
    right. exists k. auto.
Qed.

(** X9: [run] is ill-formed exactly when, after some steps within the
    depth allowed, the machine is one it has been through before, or is
    not final with the instruction matched having a movement other than
    ['L'], ['R'] and ['0']: an instruction that is never executed does no
    harm.  Once [run] is ill-formed no depth gives a result. *)
Theorem run_ill_formed_iff depth m :
  (run depth m = ill_formed <->
   exists n m1,
     steps n m = Some m1
     /\ ((n <= depth /\ exists k, k < n /\ steps k m = Some m1)
         \/ (n < depth
             /\ final (machine_state m1) = false
             /\ exists i,
                 match_instruction (machine_program m1) (machine_state m1)
                   (head (machine_tape m1)) = Some i
                 /\ movement i <> "L" /\ movement i <> "R"
                 /\ movement i <> "0")))
  /\ (run depth m = ill_formed ->
      forall depth' r, run depth' m <> result r).
Proof.
  split; [|apply run_ill_formed_no_result].
  unfold run. rewrite run_in_ill_formed.
  split; intros (n & m1 & Sn & Why); exists n, m1; (split; [exact Sn|]).
  - destruct Why as [[L [[]|Back]] | (L & C & S0)]; [left; auto|].
    right. split; [exact L|]. revert S0. unfold step. rewrite C.
    revert C. unfold cont.
    destruct (match_instruction (machine_program m1) _ _) as [i|] eqn:M;
      [|rewrite andb_false_r; discriminate].
    destruct (final (machine_state m1)); [discriminate|]. intros _.
    unfold execute_instruction, move_tape.
    destruct (Ascii.eqb_spec (movement i) "L"); [discriminate|].
    destruct (Ascii.eqb_spec (movement i) "R"); [discriminate|].
    destruct (Ascii.eqb_spec (movement i) "0"); [discriminate|].
    intros _. split; [reflexivity|]. exists i. auto.
  - destruct Why as [[L Back] | (L & F & i & M & NL & NR & N0)];
      [left; auto|].
    right. split; [exact L|]. unfold step, cont. rewrite M, F. simpl.
    split; [reflexivity|]. unfold execute_instruction, move_tape.
    destruct (Ascii.eqb_spec (movement i) "L"); [contradiction|].
    destruct (Ascii.eqb_spec (movement i) "R"); [contradiction|].
    destruct (Ascii.eqb_spec (movement i) "0"); [contradiction|].
    reflexivity.
Qed.

End MachineFurther.

(** * Printing *)

Lemma print_stack_reverse_cells (s : Stack) :
  print_stack_reverse s = flat_map (fun c => [c; " "]) (rev (cells s)).
Proof.
  induction s as [|h s IH]; simpl; [reflexivity|].
  rewrite flat_map_app, IH. reflexivity.
Qed.

Lemma print_stack_spaced_cells (s : Stack) :
  print_stack s true = flat_map (fun c => [" "; c]) (cells s) ++ [" "].
Proof. induction s as [|h s IH]; simpl; [reflexivity | rewrite IH; reflexivity]. Qed.

Lemma print_tape_cells (t : Tape) :
  print_tape t
  = flat_map (fun c => [c; " "]) (rev (cells (left t)))
    ++ ["["; head t; "]"]
    ++ flat_map (fun c => [" "; c]) (cells (right t))
    ++ [" "; newline].
Proof.
  unfold print_tape.
  rewrite print_stack_reverse_cells, print_stack_spaced_cells.
  rewrite <- !app_assoc. reflexivity.
Qed.

(** X10: the line [print_tape] writes: the cells to the left from the
    farthest to the nearest, each followed by a space, the head symbol in
    brackets, the cells to the right each preceded by a space, then one
    more space and the end of the line; so it has two characters for each
    cell shown and three more.  [print_stack] from a stack that is not
    [nil], called without a space first, also ends with a space. *)
Theorem print_tape_line (t : Tape) :
  print_tape t
  = flat_map (fun c => [c; " "]) (rev (cells (left t)))
    ++ ["["; head t; "]"]
    ++ flat_map (fun c => [" "; c]) (cells (right t))
    ++ [" "; newline]
  /\ length (print_tape t) = 2 * length (tape_cells t) + 3
  /\ (forall Head Tail,
      print_stack (stack Head Tail) false
      = Head :: flat_map (fun c => [" "; c]) (cells Tail) ++ [" "])
  /\ print_stack nil false = [].
Proof.
  split; [apply print_tape_cells | split; [|split]].
  - rewrite print_tape_cells, length_tape_cells, !length_app.
    rewrite !(flat_map_constant_length (c := 2)) by reflexivity.
    rewrite length_rev. simpl. lia.
  - intros Head Tail. simpl. rewrite print_stack_spaced_cells. reflexivity.
  - reflexivity.
Qed.

Lemma printed_left_inj (A B X Y : list ascii) :
  ~ In "[" A -> ~ In "[" B ->
  flat_map (fun c => [c; " "]) A ++ "[" :: X
  = flat_map (fun c => [c; " "]) B ++ "[" :: Y ->
  A = B /\ X = Y.
Proof.
  revert B; induction A as [|a A IH]; intros [|b B] NA NB; simpl; intros E.
  - inversion E; auto.
  - inversion E. exfalso; apply NB; simpl; auto.
  - inversion E. exfalso; apply NA; simpl; auto.
  - inversion E; subst b.
    destruct (IH B) as [-> ->]; auto.
    + intros I; apply NA; simpl; auto.
    + intros I; apply NB; simpl; auto.
Qed.

Lemma printed_right_inj (A B : list ascii) :
  flat_map (fun c => [" "; c]) A ++ [" "; newline]
  = flat_map (fun c => [" "; c]) B ++ [" "; newline] ->
  A = B.
Proof.
  revert B; induction A as [|a A IH]; intros [|b B]; simpl; intros E.
  - reflexivity.
  - inversion E as [[E1 E2]]. destruct B; discriminate.
  - inversion E as [[E1 E2]]. destruct A; discriminate.
  - inversion E; subst b. f_equal. auto.
Qed.

Lemma cells_inj (a b : Stack) : cells a = cells b -> a = b.
Proof.
  intros E. rewrite <- (stackify_cells a), <- (stackify_cells b), E.
  reflexivity.
Qed.

(** X11: two tapes with no ['['] in a cell to the left of the head that
    [print_tape] writes the same way are the same tape; with a ['['] there
    the line can be read in two ways. *)
Theorem print_tape_tells_tapes_apart :
  (forall t u,
      ~ In "[" (cells (left t)) -> ~ In "[" (cells (left u)) ->
      print_tape t = print_tape u -> t = u)
  /\ (print_tape (tape nil " " (stack "[" (stack "]" nil)))
      = print_tape (tape (stack "]" (stack "[" nil)) " " nil)
      /\ tape nil " " (stack "[" (stack "]" nil))
         <> tape (stack "]" (stack "[" nil)) " " nil).
Proof.
  split; [|split; [reflexivity | discriminate]].
  intros t u Nt Nu E.
  rewrite (print_tape_cells t), (print_tape_cells u) in E. simpl in E.
  apply printed_left_inj in E;
    [|rewrite <- in_rev; assumption|rewrite <- in_rev; assumption].
  destruct E as [El Ex]. inversion Ex as [[Eh Er]].
  apply printed_right_inj in Er.
  apply rev_inj in El. apply cells_inj in El, Er.
  destruct t, u; simpl in *; congruence.
Qed.

Lemma print_tape_tells_tapes_apart_witness :
  write_tape (make_tape ["x"; "b"]) "a" = make_tape ["a"; "b"].
Proof.
  apply (proj1 print_tape_tells_tapes_apart).
  - simpl; auto.
  - simpl; auto.
  - reflexivity.
Defined.

(** * Machines on families of tapes *)

Lemma cells_over_app (u v : list ascii) (s : Stack) :
  cells_over (u ++ v) s = cells_over u (cells_over v s).
Proof. unfold cells_over. apply fold_right_app. Qed.

Lemma cells_over_nil (w : list ascii) : cells_over w nil = stackify w.
Proof. induction w as [|c w IH]; simpl; congruence. Qed.

Lemma cells_cells_over (w : list ascii) (s : Stack) :
  cells (cells_over w s) = w ++ cells s.
Proof. induction w as [|c w IH]; simpl; congruence. Qed.

Lemma make_tape_head_right (w : list ascii) :
  make_tape w = head_right nil [] w nil.
Proof.
  destruct w as [|c w]; [reflexivity|].
  unfold head_right; simpl. rewrite cells_over_nil. reflexivity.
Qed.

Lemma blank_top (s : Stack) : blank s -> top s = empty.
Proof.
  destruct s as [|h s]; [reflexivity|].
  intros B; inversion B; subst; auto.
Qed.

Lemma blank_pop (s : Stack) : blank s -> blank (pop s).
Proof.
  destruct s as [|h s]; [auto|]. intros B; inversion B; assumption.
Qed.

Lemma blank_push (s : Stack) : blank s -> blank (push empty s).
Proof. intros B; constructor; auto. Qed.

Lemma blank_nil : blank nil.
Proof. constructor. Qed.

Lemma non_blank_blank (l : list ascii) : Forall (eq empty) l -> non_blank l = [].
Proof.
  induction 1 as [|c l E F IH]; [reflexivity|].
  subst c. simpl. exact IH.
Qed.

Lemma non_blank_app (l l' : list ascii) :
  non_blank (l ++ l') = non_blank l ++ non_blank l'.
Proof. apply filter_app. Qed.

Lemma non_blank_repeat (c : ascii) (n : nat) :
  c <> empty -> non_blank (repeat c n) = repeat c n.
Proof.
  intros N. induction n as [|n IH]; [reflexivity|].
  simpl. destruct (Ascii.eqb_spec c empty); [contradiction|].
  simpl. rewrite IH. reflexivity.
Qed.

Section ReachingProperties.

Context {State : Type} `{States State}.

Implicit Types (q : State) (c : ascii) (p : Program State).
Implicit Types (m r : Machine State).

Lemma reaches_refl m : reaches m m.
Proof. exists 0; reflexivity. Qed.

Lemma reaches_trans m m1 m2 : reaches m m1 -> reaches m1 m2 -> reaches m m2.
Proof.
  intros [n E] [k F]. exists (n + k). rewrite steps_add, E. exact F.
Qed.

Lemma reaches_step m m1 : step m = Some m1 -> reaches m m1.
Proof. intros E. exists 1. simpl. rewrite E. reflexivity. Qed.

(** A machine that is reached and has halted is what [run] gives. *)
Lemma reaches_halted_run m r :
  reaches m r -> step r = None ->
  (forall i,
     match_instruction (machine_program r) (machine_state r)
       (head (machine_tape r)) = Some i ->
     final (machine_state r) = true) ->
  exists depth, forall k, run (depth + k) m = result r.
Proof.
  intros [n E] S0 W. exists (S n). intros k.
  apply (steps_halted_run _ _ _ E). unfold cont.
  destruct (match_instruction _ _ _) as [i|] eqn:M.
  - rewrite (W i eq_refl). reflexivity.
  - apply andb_false_r.
Qed.

Lemma scan_right p q (w : list ascii) :
  Forall (skips_right p q) w ->
  forall L u v R,
    reaches (machine q (head_right L u (w ++ v) R) p)
            (machine q (head_right L (rev w ++ u) v R) p).
Proof.
  induction 1 as [|c w Sc F IH]; intros L u v R.
  - apply reaches_refl.
  - apply reaches_trans with (machine q (head_right L (c :: u) (w ++ v) R) p).
    + apply reaches_step. apply (Sc (cells_over u L) (cells_over (w ++ v) R)).
    + simpl rev. rewrite <- app_assoc. apply IH.
Qed.

Lemma scan_left p q (w : list ascii) :
  Forall (skips_left p q) w ->
  forall L u v R,
    reaches (machine q (head_left L (w ++ u) v R) p)
            (machine q (head_left L u (rev w ++ v) R) p).
Proof.
  induction 1 as [|c w Sc F IH]; intros L u v R.
  - apply reaches_refl.
  - apply reaches_trans with (machine q (head_left L (w ++ u) (c :: v) R) p).
    + apply reaches_step. apply (Sc (cells_over (w ++ u) L) (cells_over v R)).
    + simpl rev. rewrite <- app_assoc. apply IH.
Qed.

End ReachingProperties.

(** ** The acceptor of { a^n b^n c^n : n >= 0 } *)

Module AcceptorProperties.

Import Acceptor.

Lemma repeat_shift (c : ascii) (n : nat) (l : list ascii) :
  repeat c n ++ c :: l = c :: repeat c n ++ l.
Proof. induction n as [|n IH]; simpl; [reflexivity | rewrite IH; reflexivity]. Qed.

Lemma Forall_repeat (P : ascii -> Prop) (c : ascii) (n : nat) :
  P c -> Forall P (repeat c n).
Proof. intros Pc. induction n; simpl; constructor; auto. Qed.

(** *** What each state steps over *)

Lemma check_a_skips c : In c ["x"] -> skips_right lang_prog check_a c.
Proof. simpl; intuition subst; intros L R; reflexivity. Qed.

Lemma check_b_skips c :
  In c ["a"; "x"; "c"] -> skips_right lang_prog check_b c.
Proof. simpl; intuition subst; intros L R; reflexivity. Qed.

Lemma check_c_skips c : In c ["b"; "x"] -> skips_right lang_prog check_c c.
Proof. simpl; intuition subst; intros L R; reflexivity. Qed.

Lemma find_end_skips c : In c ["c"] -> skips_right lang_prog find_end c.
Proof. simpl; intuition subst; intros L R; reflexivity. Qed.

Lemma rewind_skips c :
  In c ["a"; "b"; "c"; "x"] -> skips_left lang_prog rewind c.
Proof. simpl; intuition subst; intros L R; reflexivity. Qed.

(** *** One pass: the first [a], [b] and [c] left are crossed out *)

Lemma pass (X M1 M2 C : list ascii) (L R : Stack) :
  Forall (fun c => In c ["x"]) X ->
  Forall (fun c => In c ["a"; "x"]) M1 ->
  Forall (fun c => In c ["b"; "x"]) M2 ->
  Forall (fun c => In c ["c"]) C ->
  top L = "#" -> top R = "#" ->
  reaches
    (machine check_a
       (head_right L [] (X ++ "a" :: M1 ++ "b" :: M2 ++ "c" :: C) R)
       lang_prog)
    (machine check_a
       (head_right (push "#" (pop L)) []
          (X ++ "x" :: M1 ++ "x" :: M2 ++ "x" :: C) (push "#" (pop R)))
       lang_prog).
Proof.
  intros FX F1 F2 FC TL TR.
  set (U := rev C ++ "x" :: rev M2 ++ "x" :: rev M1 ++ "x" :: rev X ++ []).
  assert (FU : Forall (fun c => In c ["a"; "b"; "c"; "x"]) U).
  { unfold U. rewrite app_nil_r.
    repeat first [apply Forall_app; split | apply Forall_cons
                 | apply Forall_rev]; simpl; auto.
    - eapply Forall_impl; [|exact FC]. simpl; intuition.
    - eapply Forall_impl; [|exact F2]. simpl; intuition.
    - eapply Forall_impl; [|exact F1]. simpl; intuition.
    - eapply Forall_impl; [|exact FX]. simpl; intuition. }
  assert (EU : rev U = X ++ "x" :: M1 ++ "x" :: M2 ++ "x" :: C).
  { unfold U. rewrite !app_nil_r.
    repeat (rewrite rev_app_distr; simpl).
    rewrite !rev_involutive, <- !app_assoc. reflexivity. }
  (* to the first a *)
  eapply reaches_trans.
  { apply scan_right. eapply Forall_impl; [|exact FX]. apply check_a_skips. }
  apply reaches_trans with
    (machine check_b
       (head_right L ("x" :: rev X ++ []) (M1 ++ "b" :: M2 ++ "c" :: C) R)
       lang_prog).
  { apply reaches_step. reflexivity. }
  (* to the first b *)
  eapply reaches_trans.
  { apply scan_right. eapply Forall_impl; [|exact F1].
    intros c I. apply check_b_skips. simpl in *; intuition. }
  apply reaches_trans with
    (machine check_c
       (head_right L ("x" :: rev M1 ++ "x" :: rev X ++ [])
          (M2 ++ "c" :: C) R)
       lang_prog).
  { apply reaches_step. reflexivity. }
  (* to the first c *)
  eapply reaches_trans.
  { apply scan_right. eapply Forall_impl; [|exact F2]. apply check_c_skips. }
  apply reaches_trans with
    (machine find_end
       (head_right L ("x" :: rev M2 ++ "x" :: rev M1 ++ "x" :: rev X ++ [])
          (C ++ []) R)
       lang_prog).
  { apply reaches_step. rewrite (app_nil_r C). reflexivity. }
  (* to the end *)
  eapply reaches_trans.
  { apply scan_right. eapply Forall_impl; [|exact FC]. apply find_end_skips. }
  fold U.
  apply reaches_trans with
    (machine rewind (head_left L (U ++ []) [] (push "#" (pop R))) lang_prog).
  { apply reaches_step. unfold head_right, head_left; simpl.
    rewrite TR, (app_nil_r U). reflexivity. }
  (* back to the start *)
  eapply reaches_trans.
  { apply scan_left. eapply Forall_impl; [|exact FU]. apply rewind_skips. }
  apply reaches_step. unfold head_left, head_right; simpl.
  rewrite TL, (app_nil_r (rev U)), EU. reflexivity.
Qed.

Lemma one_pass i ja jb jc L R :
  blank L -> blank R ->
  reaches
    (machine check_a (head_right L [] (crossed i (S ja) (S jb) (S jc)) R)
       lang_prog)
    (machine check_a
       (head_right (push empty (pop L)) [] (crossed (S i) ja jb jc)
          (push empty (pop R)))
       lang_prog).
Proof.
  intros BL BR.
  assert (E1 : crossed i (S ja) (S jb) (S jc)
    = repeat "x" i ++ "a" :: (repeat "a" ja ++ repeat "x" i)
      ++ "b" :: (repeat "b" jb ++ repeat "x" i) ++ "c" :: repeat "c" jc).
  { unfold crossed; simpl. rewrite <- !app_assoc. reflexivity. }
  assert (E2 : crossed (S i) ja jb jc
    = repeat "x" i ++ "x" :: (repeat "a" ja ++ repeat "x" i)
      ++ "x" :: (repeat "b" jb ++ repeat "x" i) ++ "x" :: repeat "c" jc).
  { unfold crossed; simpl. rewrite <- !app_assoc, !repeat_shift.
    reflexivity. }
  rewrite E1, E2.
  apply pass; try (apply blank_top; assumption);
    repeat first [apply Forall_app; split | apply Forall_repeat];
    simpl; auto.
Qed.

Lemma passes d :
  forall i ja jb jc L R,
    blank L -> blank R ->
    exists L' R',
      blank L' /\ blank R'
      /\ reaches
           (machine check_a
              (head_right L [] (crossed i (d + ja) (d + jb) (d + jc)) R)
              lang_prog)
           (machine check_a
              (head_right L' [] (crossed (d + i) ja jb jc) R') lang_prog).
Proof.
  induction d as [|d IH]; intros i ja jb jc L R BL BR.
  - exists L, R. repeat split; auto. apply reaches_refl.
  - destruct (IH (S i) ja jb jc (push empty (pop L)) (push empty (pop R)))
      as (L' & R' & BL' & BR' & Re);
      [apply blank_push, blank_pop, BL | apply blank_push, blank_pop, BR|].
    exists L', R'. repeat split; auto.
    eapply reaches_trans; [apply one_pass; assumption|].
    rewrite Nat.add_succ_r in Re. exact Re.
Qed.

(** *** How it ends, once the [a], the [b] or the [c] are used up *)

Lemma ends_accepted W L R :
  Forall (fun c => In c ["x"]) W -> top R = "#" ->
  halts_in (machine check_a (head_right L [] (W ++ []) R) lang_prog)
    (machine accept (tape (cells_over (rev W ++ []) L) "#" (pop R))
       lang_prog).
Proof.
  intros FW TR. split; [|split; reflexivity].
  eapply reaches_trans.
  { apply scan_right. eapply Forall_impl; [|exact FW]. apply check_a_skips. }
  apply reaches_step. unfold head_right; simpl. rewrite TR. reflexivity.
Qed.

Lemma ends_stuck W c v L R :
  Forall (fun c => In c ["x"]) W -> In c ["b"; "c"] ->
  halts_in (machine check_a (head_right L [] (W ++ c :: v) R) lang_prog)
    (machine check_a (head_right L (rev W ++ []) (c :: v) R) lang_prog).
Proof.
  intros FW Ic. split; [|split].
  - apply scan_right. eapply Forall_impl; [|exact FW]. apply check_a_skips.
  - simpl in Ic. destruct Ic as [<-|[<-|[]]]; reflexivity.
  - simpl in Ic. destruct Ic as [<-|[<-|[]]]; reflexivity.
Qed.

Lemma ends_without_b X M L R :
  Forall (fun c => In c ["x"]) X ->
  Forall (fun c => In c ["a"; "x"; "c"]) M ->
  top R = "#" ->
  halts_in (machine check_a (head_right L [] (X ++ "a" :: M ++ []) R) lang_prog)
    (machine fail
       (tape (cells_over (rev M ++ "x" :: rev X ++ []) L) "#" (pop R))
       lang_prog).
Proof.
  intros FX FM TR. split; [|split; reflexivity].
  eapply reaches_trans.
  { apply scan_right. eapply Forall_impl; [|exact FX]. apply check_a_skips. }
  apply reaches_trans with
    (machine check_b (head_right L ("x" :: rev X ++ []) (M ++ []) R) lang_prog).
  { apply reaches_step. reflexivity. }
  eapply reaches_trans.
  { apply scan_right. eapply Forall_impl; [|exact FM]. apply check_b_skips. }
  apply reaches_step. unfold head_right; simpl. rewrite TR. reflexivity.
Qed.

Lemma ends_without_c X M1 M2 L R :
  Forall (fun c => In c ["x"]) X ->
  Forall (fun c => In c ["a"; "x"]) M1 ->
  Forall (fun c => In c ["b"; "x"]) M2 ->
  top R = "#" ->
  halts_in
    (machine check_a (head_right L [] (X ++ "a" :: M1 ++ "b" :: M2 ++ []) R)
       lang_prog)
    (machine fail
       (tape (cells_over (rev M2 ++ "x" :: rev M1 ++ "x" :: rev X ++ []) L)
          "#" (pop R))
       lang_prog).
Proof.
  intros FX F1 F2 TR. split; [|split; reflexivity].
  eapply reaches_trans.
  { apply scan_right. eapply Forall_impl; [|exact FX]. apply check_a_skips. }
  apply reaches_trans with
    (machine check_b
       (head_right L ("x" :: rev X ++ []) (M1 ++ "b" :: M2 ++ []) R)
       lang_prog).
  { apply reaches_step. reflexivity. }
  eapply reaches_trans.
  { apply scan_right. eapply Forall_impl; [|exact F1].
    intros c I. apply check_b_skips. simpl in *; intuition. }
  apply reaches_trans with
    (machine check_c
       (head_right L ("x" :: rev M1 ++ "x" :: rev X ++ []) (M2 ++ []) R)
       lang_prog).
  { apply reaches_step. reflexivity. }
  eapply reaches_trans.
  { apply scan_right. eapply Forall_impl; [|exact F2]. apply check_c_skips. }
  apply reaches_step. unfold head_right; simpl. rewrite TR. reflexivity.
Qed.

Ltac all_in :=
  repeat first [apply Forall_app; split | apply Forall_repeat];
  simpl; auto.

Lemma ending i ja jb jc L R :
  blank L -> blank R ->
  ja = 0 \/ jb = 0 \/ jc = 0 ->
  exists q t,
    halts_in
      (machine check_a (head_right L [] (crossed i ja jb jc) R) lang_prog)
      (machine q t lang_prog)
    /\ (q = accept <-> ja = 0 /\ jb = 0 /\ jc = 0)
    /\ (q = accept -> non_blank (tape_cells t) = repeat "x" (3 * i))
    /\ In q [accept; check_a; fail].
Proof.
  intros BL BR Zero.
  assert (TR := blank_top _ BR).
  destruct ja as [|ja]; [destruct jb as [|jb]; [destruct jc as [|jc]|]
                        | destruct jb as [|jb]].
  - (* nothing left *)
    replace (crossed i 0 0 0)
      with ((repeat "x" i ++ repeat "x" i ++ repeat "x" i) ++ [])
      by (unfold crossed; simpl; rewrite <- !app_assoc; reflexivity).
    eexists; eexists. split; [apply ends_accepted; [all_in | exact TR]|].
    split; [split; auto|]. split; [|simpl; auto]. intros _.
    unfold tape_cells; simpl.
    rewrite cells_cells_over, !app_nil_r, rev_app_distr, rev_involutive.
    rewrite <- app_assoc, !non_blank_app.
    rewrite (non_blank_blank (rev (cells L))) by (apply Forall_rev, BL).
    rewrite (non_blank_blank ("#" :: cells (pop R)))
      by (constructor; [reflexivity | apply blank_pop, BR]).
    rewrite !non_blank_repeat by discriminate.
    simpl. rewrite app_nil_r, <- !repeat_app. f_equal. lia.
  - (* some c only *)
    replace (crossed i 0 0 (S jc))
      with ((repeat "x" i ++ repeat "x" i ++ repeat "x" i)
            ++ "c" :: repeat "c" jc)
      by (unfold crossed; simpl; rewrite <- !app_assoc; reflexivity).
    eexists; eexists. split; [apply ends_stuck; [all_in | simpl; auto]|].
    split; [split; [discriminate | intros (_ & _ & E); discriminate E]|].
    split; [discriminate | simpl; auto].
  - (* some b, no a *)
    replace (crossed i 0 (S jb) jc)
      with ((repeat "x" i ++ repeat "x" i)
            ++ "b" :: (repeat "b" jb ++ repeat "x" i ++ repeat "c" jc))
      by (unfold crossed; simpl; rewrite <- !app_assoc; reflexivity).
    eexists; eexists. split; [apply ends_stuck; [all_in | simpl; auto]|].
    split; [split; [discriminate | intros (_ & E & _); discriminate E]|].
    split; [discriminate | simpl; auto].
  - (* some a, no b *)
    replace (crossed i (S ja) 0 jc)
      with (repeat "x" i
            ++ "a" :: (repeat "a" ja ++ repeat "x" i ++ repeat "x" i
                       ++ repeat "c" jc) ++ [])
      by (unfold crossed; simpl; rewrite app_nil_r; reflexivity).
    eexists; eexists. split; [apply ends_without_b; [all_in | all_in | exact TR]|].
    split; [split; [discriminate | intros (E & _); discriminate E]|].
    split; [discriminate | simpl; auto].
  - (* some a, some b, so no c *)
    assert (jc = 0) by (destruct Zero as [E|[E|E]]; [discriminate E.. | exact E]).
    subst jc.
    replace (crossed i (S ja) (S jb) 0)
      with (repeat "x" i
            ++ "a" :: (repeat "a" ja ++ repeat "x" i)
            ++ "b" :: (repeat "b" jb ++ repeat "x" i) ++ [])
      by (unfold crossed; simpl; rewrite <- !app_assoc; reflexivity).
    eexists; eexists.
    split; [apply ends_without_c; [all_in | all_in | all_in | exact TR]|].
    split; [split; [discriminate | intros (E & _); discriminate E]|].
    split; [discriminate | simpl; auto].
Qed.

(** *** On every word a^n b^m c^k *)

Lemma lang_prog_halts n m k :
  exists q t,
    halts_in
      (machine check_a
         (make_tape (repeat "a" n ++ repeat "b" m ++ repeat "c" k)) lang_prog)
      (machine q t lang_prog)
    /\ (q = accept <-> n = m /\ m = k)
    /\ (q = accept ->
        non_blank (tape_cells t) = repeat "x" (3 * Nat.min n (Nat.min m k)))
    /\ In q [accept; check_a; fail].
Proof.
  set (d := Nat.min n (Nat.min m k)).
  destruct (passes d 0 (n - d) (m - d) (k - d) nil nil blank_nil blank_nil)
    as (L' & R' & BL' & BR' & Re).
  destruct (ending (d + 0) (n - d) (m - d) (k - d) L' R' BL' BR')
    as (q & t & (Re' & S0 & M0) & Iff & Tape & Iq); [unfold d; lia|].
  exists q, t. split; [split; [|split; assumption]|split; [|split]].
  - eapply reaches_trans; [|exact Re'].
    rewrite make_tape_head_right.
    replace (repeat "a" n ++ repeat "b" m ++ repeat "c" k)
      with (crossed 0 (d + (n - d)) (d + (m - d)) (d + (k - d))); [exact Re|].
    replace (d + (n - d)) with n by (unfold d; lia).
    replace (d + (m - d)) with m by (unfold d; lia).
    replace (d + (k - d)) with k by (unfold d; lia).
    reflexivity.
  - rewrite Iff. unfold d. lia.
  - intros A. rewrite (Tape A), Nat.add_0_r. reflexivity.
  - exact Iq.
Qed.

Lemma final_accept (q : state) : final q = true <-> q = accept.
Proof. destruct q; simpl; split; congruence. Qed.

(** X12: on the word a^n b^n c^n, for every [n], the acceptor halts in
    its final state [accept], so the word is reported as accepted, and
    every letter of the tape is crossed out: what is not empty on it is
    3n times ['x']. *)
Theorem lang_prog_accepts_anbncn n :
  exists depth r,
    (forall e,
        run (depth + e) (machine check_a (make_tape (anbncn n)) lang_prog)
        = result r)
    /\ machine_state r = accept
    /\ halting r = Accepted
    /\ non_blank (tape_cells (machine_tape r)) = repeat "x" (3 * n).
Proof.
  destruct (lang_prog_halts n n n)
    as (q & t & (Re & S0 & M0) & Iff & Tape & _).
  assert (A : q = accept) by (apply Iff; auto). subst q.
  destruct (reaches_halted_run _ _ Re S0) as [depth Run].
  { intros i E. simpl in *. congruence. }
  exists depth, (machine accept t lang_prog).
  split; [exact Run | split; [reflexivity | split; [reflexivity|]]].
  simpl. rewrite (Tape eq_refl), !Nat.min_id. reflexivity.
Qed.

(** X13: on every word a^n b^m c^k the acceptor halts, and it reports
    the word as accepted exactly when n = m = k; otherwise it halts in
    [check_a] or in [fail], which are not final. *)
Theorem lang_prog_decides n m k :
  exists depth r,
    (forall e,
        run (depth + e)
          (machine check_a
             (make_tape (repeat "a" n ++ repeat "b" m ++ repeat "c" k))
             lang_prog)
        = result r)
    /\ (halting r = Accepted <-> n = m /\ m = k)
    /\ (halting r = Stuck <-> ~ (n = m /\ m = k))
    /\ (machine_state r = accept <-> n = m /\ m = k)
    /\ In (machine_state r) [accept; check_a; fail].
Proof.
  destruct (lang_prog_halts n m k)
    as (q & t & (Re & S0 & M0) & Iff & _ & Iq).
  destruct (reaches_halted_run _ _ Re S0) as [depth Run].
  { intros i E. simpl in *. congruence. }
  exists depth, (machine q t lang_prog).
  split; [exact Run|]. rewrite <- Iff. unfold halting; simpl.
  split; [|split; [|split; [tauto | exact Iq]]];
    destruct q; simpl; split; congruence.
Qed.

End AcceptorProperties.

(** ** The further properties, on the reversal machine *)

Module FurtherExamples.

Import Reversal.

Lemma run_result_runs_no_more_witness :
  run 1 reversed = result reversed /\ step reversed = None.
Proof.
  destruct (run_result_runs_no_more 67
              (machine put_right_marker reverse_tape1 reverse_prog) reversed
              ReversalProperties.run_reverse_tape1) as (R & S0 & _).
  split; [exact (R 0) | exact S0].
Defined.

Lemma steps_tape_grows_witness :
  length (tape_cells reverse_tape1)
    <= length (tape_cells (machine_tape reversed))
    <= length (tape_cells reverse_tape1) + 66.
Proof.
  exact (steps_tape_grows 66
           (machine put_right_marker reverse_tape1 reverse_prog) reversed
           ReversalProperties.steps_reverse_tape1).
Defined.

Lemma same_tape_runs_alike_witness :
  exists u',
    run 6 (machine put_right_marker (tape (stack "#" nil) "#" nil) reverse_prog)
    = result (machine end_ u' reverse_prog)
    /\ same_tape (tape (stack "#" nil) "#" (stack "#" nil)) u'.
Proof.
  assert (E : same_tape (make_tape []) (tape (stack "#" nil) "#" nil)).
  { split; [reflexivity | split].
    - apply same_stack_sym, (push_top_pop nil).
    - apply same_stack_refl. }
  destruct (same_tape_runs_alike reverse_prog put_right_marker _ _ E)
    as (_ & R & _).
  apply (R 6 (machine end_ (tape (stack "#" nil) "#" (stack "#" nil))
                reverse_prog)).
  vm_compute. reflexivity.
Defined.

Lemma steps_symbols_origin_witness :
  In "b" (tape_cells reverse_tape1)
  \/ "b" = empty
  \/ ("b" <> wildcard
      /\ exists i, In i reverse_prog /\ head_write i = "b").
Proof.
  apply (steps_symbols_origin 66
           (machine put_right_marker reverse_tape1 reverse_prog) reversed "b"
           ReversalProperties.steps_reverse_tape1).
  vm_compute. auto.
Defined.

Lemma program_extended_at_end_witness :
  run 67
    (machine put_right_marker reverse_tape1
       (reverse_prog ++ [instruction end_ "#" end_ "#" "0"]))
  = result
      (machine end_ (machine_tape reversed)
         (reverse_prog ++ [instruction end_ "#" end_ "#" "0"])).
Proof.
  destruct (program_extended_at_end reverse_prog
              [instruction end_ "#" end_ "#" "0"] put_right_marker
              reverse_tape1) as (_ & _ & R).
  apply (R 67 reversed ReversalProperties.run_reverse_tape1). reflexivity.
Defined.

Lemma wildcard_hides_later_instructions_witness :
  match_instruction reverse_prog put_right_marker "a"
  = match_instruction (firstn 2 reverse_prog) put_right_marker "a".
Proof.
  destruct (wildcard_hides_later_instructions
              (firstn 1 reverse_prog)
              (instruction put_right_marker "?" put_right_marker "?" "R")
              (skipn 2 reverse_prog) eq_refl) as (E & _).
  exact (E "a").
Defined.

Lemma run_known_movements_return_witness :
  run 2
    (machine rewind (tape nil "#" (stack "#" nil))
       [instruction rewind "#" clear "#" "R";
        instruction clear "#" rewind "#" "L"])
  = ill_formed.
Proof.
  assert (Moves : forall i,
            In i [instruction rewind "#" clear "#" "R";
                  instruction clear "#" rewind "#" "L"] ->
            movement i = "L" \/ movement i = "R" \/ movement i = "0").
  { intros i I. simpl in I.
    repeat (destruct I as [<-|I]; [simpl; auto|]). contradiction. }
  destruct (run_known_movements_return _ Moves) as [_ R].
  apply R.
  exists 0, 2, (machine rewind (tape nil "#" (stack "#" nil))
                  [instruction rewind "#" clear "#" "R";
                   instruction clear "#" rewind "#" "L"]).
  split; [lia | split; [lia | split; reflexivity]].
Defined.

(** Two tapes with the same content need not come back to a machine after
    the same number of steps: a cell that is there on one tape has to be
    created on the other, and the machine that comes back is another
    type.  The depth at which [run] is seen to be ill-formed differs. *)
Example same_tape_return_depth :
  same_tape (tape nil "#" (stack "#" nil)) (tape nil "#" nil)
  /\ run 2
       (machine rewind (tape nil "#" (stack "#" nil))
          [instruction rewind "#" clear "#" "R";
           instruction clear "#" rewind "#" "L"])
     = ill_formed
  /\ run 2
       (machine rewind (tape nil "#" nil)
          [instruction rewind "#" clear "#" "R";
           instruction clear "#" rewind "#" "L"])
     = unfinished
  /\ run 3
       (machine rewind (tape nil "#" nil)
          [instruction rewind "#" clear "#" "R";
           instruction clear "#" rewind "#" "L"])
     = ill_formed.
Proof.
  split; [|split; [|split]]; try (vm_compute; reflexivity).
  split; [reflexivity | split].
  - apply same_stack_refl.
  - apply (push_top_pop nil).
Qed.

End FurtherExamples.

(** ** The reversal machine on every word over a and b *)

Module ReversalOnWords.

Import Reversal.

Ltac letters :=
  repeat match goal with
         | H : letter _ |- _ => destruct H as [-> | ->]
         end.

Lemma put_right_marker_skips c :
  letter c -> skips_right reverse_prog put_right_marker c.
Proof. intros Hc; letters; intros L R; reflexivity. Qed.

Lemma rewind_skips_letters c : letter c -> skips_left reverse_prog rewind c.
Proof. intros Hc; letters; intros L R; reflexivity. Qed.

Lemma go_right_skips d c :
  letter d -> letter c -> skips_right reverse_prog (go_right d) c.
Proof. intros Hd Hc; letters; intros L R; reflexivity. Qed.

Lemma go_left_skips d c :
  letter d -> letter c -> skips_left reverse_prog (go_left d) c.
Proof. intros Hd Hc; letters; intros L R; reflexivity. Qed.

Lemma skips_all (P : ascii -> Prop) (w : list ascii) :
  (forall c, letter c -> P c) -> Forall letter w -> Forall P w.
Proof. intros I F. eapply Forall_impl; [|exact F]. exact I. Qed.

(** *** The marker is put after the word and the head brought back *)

Lemma marked w :
  Forall letter w ->
  reaches
    (machine put_right_marker (make_tape w) reverse_prog)
    (machine take_left (head_right (stack "#" nil) [] (w ++ ["|"]) nil)
       reverse_prog).
Proof.
  intros Fw. rewrite make_tape_head_right, <- (app_nil_r w) at 1.
  eapply reaches_trans.
  { apply scan_right. apply (skips_all _ w put_right_marker_skips Fw). }
  apply reaches_trans with
    (machine rewind (head_left nil (rev w ++ []) ["|"] nil) reverse_prog).
  { apply reaches_step. rewrite (app_nil_r (rev w)). reflexivity. }
  eapply reaches_trans.
  { apply scan_left. apply skips_all; [apply rewind_skips_letters|].
    apply Forall_rev, Fw. }
  apply reaches_step. rewrite rev_involutive. reflexivity.
Qed.

(** *** One round: the first and the last letter left change places *)

Lemma round c d M pu S L R :
  letter c -> letter d -> Forall letter M ->
  reaches
    (machine take_left (head_right L pu (c :: M ++ d :: "|" :: S) R)
       reverse_prog)
    (machine take_left (head_right L (d :: pu) (M ++ "|" :: c :: S) R)
       reverse_prog).
Proof.
  intros Hc Hd FM.
  apply reaches_trans with
    (machine (go_right c)
       (head_right L ("|" :: pu) ((M ++ [d]) ++ "|" :: S) R) reverse_prog).
  { apply reaches_step. rewrite <- app_assoc. letters; reflexivity. }
  eapply reaches_trans.
  { apply scan_right. apply skips_all;
      [intros x Hx; apply go_right_skips; assumption|].
    apply Forall_app; split; [exact FM|].
    constructor; [exact Hd | constructor]. }
  rewrite rev_app_distr. simpl rev. simpl app.
  apply reaches_trans with
    (machine take_right
       (head_left L (d :: rev M ++ "|" :: pu) (c :: S) R) reverse_prog).
  { apply reaches_step. letters; reflexivity. }
  apply reaches_trans with
    (machine (go_left d)
       (head_left L (rev M ++ "|" :: pu) ("|" :: c :: S) R) reverse_prog).
  { apply reaches_step. letters; reflexivity. }
  eapply reaches_trans.
  { apply scan_left. apply skips_all;
      [intros x Hx; apply go_left_skips; assumption|].
    apply Forall_rev, FM. }
  apply reaches_step. rewrite rev_involutive. letters; reflexivity.
Qed.

Lemma first_and_last (l : list ascii) :
  l = [] \/ (exists c, l = [c]) \/ exists c M d, l = c :: M ++ [d].
Proof.
  destruct l as [|c l]; [auto|]. right.
  destruct l as [|c' l]; [left; eauto|]. right.
  destruct (exists_last (l := c' :: l)) as (M & d & E); [discriminate|].
  exists c, M, d. rewrite E. reflexivity.
Qed.

(** *** The rounds, until the letters left are used up *)

Lemma rounds k L R :
  forall Mid pu S,
    length Mid <= k -> Forall letter Mid -> Forall letter S ->
    exists pu' S',
      reaches
        (machine take_left (head_right L pu (Mid ++ "|" :: S) R) reverse_prog)
        (machine clear (head_right L ("|" :: pu') S' R) reverse_prog)
      /\ rev S' ++ pu' = rev S ++ Mid ++ pu
      /\ Forall letter S'.
Proof.
  induction k as [|k IH]; intros Mid pu S Len FM FS.
  - destruct Mid; [|simpl in Len; lia].
    exists pu, S. split; [|auto]. apply reaches_step. reflexivity.
  - destruct (first_and_last Mid) as [->|[(c & ->)|(c & M & d & ->)]].
    + exists pu, S. split; [|auto]. apply reaches_step. reflexivity.
    + exists pu, (c :: S). inversion FM as [|c0 l0 Hc _]; subst.
      split; [|split; [simpl; rewrite <- app_assoc; reflexivity|auto]].
      apply reaches_trans with
        (machine (go_right c) (head_right L ("|" :: pu) ("|" :: S) R)
           reverse_prog).
      { apply reaches_step. letters; reflexivity. }
      apply reaches_trans with
        (machine take_right (head_left L ("|" :: pu) (c :: S) R)
           reverse_prog).
      { apply reaches_step. letters; reflexivity. }
      apply reaches_step. reflexivity.
    + inversion FM as [|c0 l0 Hc FM']; subst.
      apply Forall_app in FM'. destruct FM' as [FM' Fd].
      inversion Fd as [|d0 l0 Hd _]; subst.
      destruct (IH M (d :: pu) (c :: S)) as (pu' & S' & Re & E & FS'); auto.
      { simpl in Len. rewrite length_app in Len. simpl in Len. lia. }
      exists pu', S'. split; [|split; [|exact FS']].
      * eapply reaches_trans; [|exact Re].
        simpl. rewrite <- app_assoc. simpl. apply round; assumption.
      * rewrite E. simpl. rewrite <- !app_assoc. reflexivity.
Qed.

(** *** Clearing: the letters after the hole move one cell to the left *)

Lemma clearing T L R :
  Forall letter T ->
  forall pu,
    reaches
      (machine clear (head_right L ("|" :: pu) (T ++ []) R) reverse_prog)
      (machine clear (head_right L ("|" :: rev T ++ pu) [] R) reverse_prog).
Proof.
  induction 1 as [|c T Hc FT IH]; intros pu; [apply reaches_refl|].
  apply reaches_trans with
    (machine (clear_letter c)
       (head_left L ("|" :: pu) ("|" :: T ++ []) R) reverse_prog).
  { apply reaches_step. letters; reflexivity. }
  apply reaches_trans with
    (machine clear (head_right L (c :: pu) ("|" :: T ++ []) R) reverse_prog).
  { apply reaches_step. letters; reflexivity. }
  apply reaches_trans with
    (machine clear (head_right L ("|" :: c :: pu) (T ++ []) R) reverse_prog).
  { apply reaches_step. reflexivity. }
  simpl rev. rewrite <- app_assoc. apply IH.
Qed.

Lemma cleared U L :
  reaches
    (machine clear (head_right L ("|" :: U) [] nil) reverse_prog)
    (machine end_ (tape (cells_over U L) "#" (stack "#" nil)) reverse_prog).
Proof.
  apply reaches_trans with
    (machine clear_last (head_left L ("|" :: U) ["#"] nil) reverse_prog).
  { apply reaches_step. reflexivity. }
  apply reaches_step. reflexivity.
Qed.

Lemma cells_over_stackify (w v : list ascii) :
  cells_over w (stackify v) = stackify (w ++ v).
Proof. rewrite <- !cells_over_nil, cells_over_app. reflexivity. Qed.

Lemma reverse_prog_reaches_end w :
  Forall letter w ->
  reaches
    (machine put_right_marker (make_tape w) reverse_prog)
    (machine end_ (tape (stackify (w ++ ["#"])) "#" (stack "#" nil))
       reverse_prog).
Proof.
  intros Fw.
  destruct (rounds (length w) (stack "#" nil) nil w [] []) as
    (pu' & S' & Re & E & FS'); auto.
  eapply reaches_trans; [apply marked, Fw|].
  eapply reaches_trans; [exact Re|].
  rewrite <- (app_nil_r S') at 1.
  eapply reaches_trans; [apply clearing, FS'|].
  eapply reaches_trans; [apply cleared|].
  rewrite E. simpl. rewrite app_nil_r.
  change (stack "#" nil) with (stackify ["#"]) at 1.
  rewrite cells_over_stackify. apply reaches_refl.
Qed.

(** X14: on every word [w] of letters a and b the reversal machine,
    started in [put_right_marker] on the tape made from [w], halts in the
    final state [end] with the head on an empty cell, the word reversed
    to its left after one empty cell, and one empty cell to its right:
    what is not empty on the tape spells [w] reversed. *)
Theorem reverse_prog_reverses w (Hw : Forall letter w) :
  exists depth r,
    (forall e,
        run (depth + e) (machine put_right_marker (make_tape w) reverse_prog)
        = result r)
    /\ r = machine end_ (tape (stackify (w ++ ["#"])) "#" (stack "#" nil))
             reverse_prog
    /\ halting r = Accepted
    /\ tape_cells (machine_tape r) = "#" :: rev w ++ ["#"; "#"]
    /\ non_blank (tape_cells (machine_tape r)) = rev w.
Proof.
  destruct (reaches_halted_run _ _ (reverse_prog_reaches_end w Hw))
    as [depth Run]; [reflexivity | reflexivity |].
  exists depth. eexists. split; [exact Run|].
  split; [reflexivity | split; [reflexivity|]].
  assert (E : tape_cells (tape (stackify (w ++ ["#"])) "#" (stack "#" nil))
              = "#" :: rev w ++ ["#"; "#"]).
  { unfold tape_cells; simpl.
    rewrite cells_stackify, rev_app_distr, <- app_assoc. reflexivity. }
  split; [exact E|]. simpl machine_tape. rewrite E. simpl.
  rewrite non_blank_app. simpl. rewrite app_nil_r.
  apply forallb_filter_id. apply forallb_forall. intros x I.
  apply in_rev in I. rewrite Forall_forall in Hw.
  destruct (Hw x I) as [-> | ->]; reflexivity.
Qed.

Lemma reverse_prog_reverses_witness :
  exists depth,
    run depth (machine put_right_marker reverse_tape1 reverse_prog)
    = result reversed.
Proof.
  assert (Hw : Forall letter ["a"; "b"; "a"; "a"; "b"; "b"; "a"]).
  { unfold letter. repeat (apply Forall_cons; [auto|]). apply Forall_nil. }
  destruct (reverse_prog_reverses _ Hw) as (depth & r & Run & E & _).
  exists (depth + 0). unfold reverse_tape1. rewrite (Run 0), E. reflexivity.
Defined.

End ReversalOnWords.

(** * mu-recursive functions: properties *)

Module MuProperties.

Import Mu.

Local Open Scope N_scope.

Ltac mu_eval :=
  cbn [bind all_values map substitution projection unary binary zero
       successor recursion_helper constant length Nat.leb Nat.add forallb].

Lemma projection_is_nth (I depth : nat) (Xs : list N) :
  projection I depth Xs =
  match nth_error Xs I with
  | Some x => value x
  | None => ill_formed
  end.
Proof.
  revert Xs; induction I as [|I IH]; intros [|First Rest]; try reflexivity.
  cbn [projection nth_error].
  destruct (Nat.leb_spec (S I) (length Rest + 1)) as [Le|Gt].
  - apply IH.
  - assert (E : nth_error Rest I = None) by (apply nth_error_None; lia).
    rewrite E. reflexivity.
Qed.

(** X15: [projection<I>::fun] gives the argument number [I], counted from
    0, whatever the other arguments, and is ill-formed when there are [I]
    arguments or fewer (none at all included). *)
Theorem projection_nth (I depth : nat) (Xs : list N) :
  projection I depth Xs =
    match nth_error Xs I with
    | Some x => value x
    | None => ill_formed
    end
  /\ (forall before x after,
      length before = I ->
      projection I depth (before ++ x :: after) = value x)
  /\ ((length Xs <= I)%nat -> projection I depth Xs = ill_formed).
Proof.
  split; [apply projection_is_nth | split].
  - intros before x after <-. rewrite projection_is_nth.
    rewrite nth_error_app2, Nat.sub_diag by lia. reflexivity.
  - intros Le. rewrite projection_is_nth.
    apply nth_error_None in Le. rewrite Le. reflexivity.
Qed.

Section Width.

Variable bits : N.
Hypothesis bits_ok : 16 <= bits.

Lemma unsigned_values_double : unsigned_values bits = 2 * int_values bits.
Proof.
  unfold unsigned_values, int_values.
  replace bits with (N.succ (bits - 1)) at 1 by lia.
  apply N.pow_succ_r'.
Qed.

Lemma int_values_large : 32768 <= int_values bits.
Proof.
  unfold int_values. change 32768 with (2 ^ 15).
  apply N.pow_le_mono_r; lia.
Qed.

Lemma fits_int_lt (x : N) : fits_int bits x = true <-> x < int_values bits.
Proof. apply N.ltb_lt. Qed.

Lemma fits_int_ge (x : N) :
  fits_int bits x = false <-> int_values bits <= x.
Proof. apply N.ltb_ge. Qed.

Lemma forallb_fits (Xs : list N) :
  forallb (fits_int bits) Xs = true <-> Forall (fun x => x < (int_values bits)) Xs.
Proof.
  rewrite forallb_forall, Forall_forall.
  split; intros A x I; apply fits_int_lt, A, I.
Qed.

(** *** Primitive recursion *)

Lemma recursion_helper_value (G H : Function) (Xs : list N) (depth : nat)
    (g : N) (h : N -> N -> N) :
  G depth Xs = value g ->
  forall Y : nat,
    (forall y, y < N.of_nat Y ->
       H depth (y :: N.peano_rect (fun _ => N) g h y :: Xs)
       = value (h y (N.peano_rect (fun _ => N) g h y))) ->
    recursion_helper G H Y Xs depth
    = value (N.peano_rect (fun _ => N) g h (N.of_nat Y)).
Proof.
  intros EG. induction Y as [|Y IH]; intros EH; [exact EG|].
  cbn [recursion_helper]. rewrite IH by (intros y L; apply EH; lia).
  cbn [bind]. rewrite EH by lia.
  rewrite Nat2N.inj_succ, N.peano_rect_succ. reflexivity.
Qed.

Lemma recursion_helper_below (G H : Function) (Xs : list N) (depth : nat) :
  forall (Y : nat) v,
    recursion_helper G H Y Xs depth = value v ->
    forall y, (y <= Y)%nat ->
      exists v', recursion_helper G H y Xs depth = value v'.
Proof.
  induction Y as [|Y IH]; intros v E y L.
  - replace y with 0%nat by lia. eauto.
  - destruct (Nat.eq_dec y (S Y)) as [->|N]; [eauto|].
    cbn [recursion_helper] in E.
    destruct (recursion_helper G H Y Xs depth) as [z| |] eqn:Ez;
      cbn [bind] in E; try discriminate.
    apply (IH z eq_refl). lia.
Qed.

Lemma recursion_fits (G H : Function) (depth : nat) (Y : N) (Xs : list N) :
  Forall (fun x => x < int_values bits) (Y :: Xs) ->
  recursion bits G H depth (Y :: Xs)
  = recursion_helper G H (N.to_nat Y) Xs depth.
Proof.
  intros F. unfold recursion.
  apply forallb_fits in F. rewrite F. reflexivity.
Qed.

(** X16: primitive recursion.  With arguments that fit [int], when [G]
    has the value g on [Xs] and [H] the value h(y, f(y)) on [y], f(y)
    and [Xs] for every y below [Y], [recursion<G, H>::fun<Y, Xs...>] has
    the value f(Y), for the function f with f(0) = g and
    f(y + 1) = h(y, f(y)): h applied [Y] times from g.  A value at [Y]
    needs the values at every smaller first argument, and a first
    argument that does not fit [int] gives no value, whatever [G] and
    [H]. *)
Theorem recursion_primitive (G H : Function) (depth : nat) (Xs : list N)
    (HXs : Forall (fun x => x < int_values bits) Xs) :
  (forall g h Y,
      Y < int_values bits ->
      G depth Xs = value g ->
      (forall y, y < Y ->
         H depth (y :: N.peano_rect (fun _ => N) g h y :: Xs)
         = value (h y (N.peano_rect (fun _ => N) g h y))) ->
      recursion bits G H depth (Y :: Xs)
      = value (N.peano_rect (fun _ => N) g h Y))
  /\ (forall Y v,
      recursion bits G H depth (Y :: Xs) = value v ->
      Y < int_values bits
      /\ forall y, y <= Y ->
           exists v', recursion bits G H depth (y :: Xs) = value v')
  /\ (forall Y,
      int_values bits <= Y ->
      recursion bits G H depth (Y :: Xs) = ill_formed).
Proof.
  assert (Large : forall Y, int_values bits <= Y ->
            recursion bits G H depth (Y :: Xs) = ill_formed).
  { intros Y L. unfold recursion. cbn [forallb].
    apply fits_int_ge in L. rewrite L. reflexivity. }
  split; [|split; [|exact Large]].
  - intros g h Y LY EG EH.
    rewrite recursion_fits by (constructor; assumption).
    rewrite (recursion_helper_value G H Xs depth g h EG)
      by (intros y L; apply EH; lia).
    rewrite N2Nat.id. reflexivity.
  - intros Y v E.
    assert (LY : Y < int_values bits).
    { destruct (N.lt_ge_cases Y (int_values bits)) as [L|L]; [exact L|].
      rewrite (Large Y L) in E. discriminate. }
    split; [exact LY|]. intros y Ly.
    rewrite recursion_fits in E by (constructor; assumption).
    rewrite recursion_fits by (constructor; [lia | assumption]).
    apply (recursion_helper_below G H Xs depth _ v E). lia.
Qed.

(** *** Minimisation *)

Lemma minimisation_helper_final (F : Function) (Xs : list N) open depth Z :
  minimisation_helper bits F Xs open depth Z true = value Z.
Proof. destruct depth; reflexivity. Qed.

Lemma is_open_below (Z : N) (open : list N) :
  (forall o, In o open -> o < Z) -> existsb (N.eqb Z) open = false.
Proof.
  intros B. apply not_true_iff_false. rewrite existsb_exists.
  intros (o & I & E). apply N.eqb_eq in E. subst o.
  specialize (B _ I). lia.
Qed.

Lemma minimisation_helper_sound (F : Function) (Xs : list N) :
  forall depth open Z Final z,
    minimisation_helper bits F Xs open depth Z Final = value z ->
    (Final = true /\ z = Z) \/ exists d, F d (z :: Xs) = value 0.
Proof.
  induction depth as [|depth IH]; intros open Z [|] z;
    cbn [minimisation_helper];
    try (intros E; inversion E; auto; fail);
    destruct (existsb (N.eqb Z) open); try discriminate.
  destruct (F depth ((Z + 1) mod unsigned_values bits :: Xs)) as [v| |] eqn:Fv;
    cbn [bind]; try discriminate.
  intros E. destruct (IH _ _ _ _ E) as [[Ev ->]|Ex]; [|auto].
  right. exists depth. apply N.eqb_eq in Ev. subst v. exact Fv.
Qed.

Lemma minimisation_helper_complete (F : Function) (Xs : list N) (f : N -> N)
    (z : N) :
  (forall d i, i <= z -> F d (i :: Xs) = value (f i)) ->
  f z = 0 -> (forall i, i < z -> f i <> 0) ->
  z < unsigned_values bits ->
  forall k open Z depth,
    (forall o, In o open -> o < Z) ->
    Z + N.of_nat (S k) = z -> (S k <= depth)%nat ->
    minimisation_helper bits F Xs open depth Z false = value z.
Proof.
  intros Ff Fz Fi Lz. induction k as [|k IH]; intros open Z depth B EZ Ld;
    (destruct depth as [|depth]; [lia|]); cbn [minimisation_helper];
    rewrite (is_open_below Z open B);
    rewrite (N.mod_small (Z + 1)) by lia; rewrite Ff by lia; cbn [bind].
  - replace (Z + 1) with z by lia. rewrite Fz.
    apply minimisation_helper_final.
  - destruct (N.eqb_spec (f (Z + 1)) 0) as [E|_];
      [exfalso; apply (Fi (Z + 1)); [lia | exact E]|].
    apply IH; [|lia|lia].
    intros o [<-|I]; [lia|]. specialize (B _ I). lia.
Qed.

(** A function that is nowhere zero is looked at once for every
    [unsigned]; then the helper for 0 is asked for again. *)
Lemma minimisation_helper_no_zero (F : Function) (Xs : list N) (f : N -> N) :
  (forall d i, F d (i :: Xs) = value (f i)) ->
  (forall i, f i <> 0) ->
  forall depth open Z,
    Z < unsigned_values bits ->
    (forall o, In o open <-> o < Z) ->
    minimisation_helper bits F Xs open depth Z false
    = if N.of_nat depth + Z <? unsigned_values bits
      then unfinished else ill_formed.
Proof.
  intros Ff Fi. induction depth as [|depth IH]; intros open Z LZ B;
    cbn [minimisation_helper];
    rewrite (is_open_below Z open) by (intros o I; apply B, I).
  - destruct (N.ltb_spec (N.of_nat 0 + Z) (unsigned_values bits));
      [reflexivity | lia].
  - rewrite Ff. cbn [bind].
    destruct (N.eqb_spec (f ((Z + 1) mod unsigned_values bits)) 0) as [E|_];
      [exfalso; apply (Fi _ E)|].
    destruct (N.lt_ge_cases (Z + 1) (unsigned_values bits)) as [L|L].
    + rewrite N.mod_small by exact L. rewrite IH; [|exact L|].
      * replace (N.of_nat depth + (Z + 1)) with (N.of_nat (S depth) + Z)
          by lia.
        reflexivity.
      * intros o. simpl. rewrite B. lia.
    + replace (Z + 1) with (unsigned_values bits) by lia.
      rewrite N.Div0.mod_same.
      destruct (N.ltb_spec (N.of_nat (S depth) + Z) (unsigned_values bits));
        [lia|].
      assert (O : existsb (N.eqb 0) (Z :: open) = true).
      { apply existsb_exists. exists 0. split; [|reflexivity].
        simpl. destruct (N.eq_dec Z 0) as [->|N]; [auto|].
        right. apply B. lia. }
      destruct depth; cbn [minimisation_helper]; rewrite O; reflexivity.
Qed.

Lemma minimisation_sound (F : Function) (depth : nat) (Xs : list N) (z : N) :
  minimisation bits F depth Xs = value z ->
  exists d, F d (z :: Xs) = value 0.
Proof.
  unfold minimisation.
  destruct (F depth (0 :: Xs)) as [v| |] eqn:Fv; cbn [bind]; try discriminate.
  intros E.
  destruct (minimisation_helper_sound _ _ _ _ _ _ _ E) as [[Ev ->]|Ex];
    [|exact Ex].
  exists depth. apply N.eqb_eq in Ev. subst v. exact Fv.
Qed.

Lemma minimisation_complete (F : Function) (depth : nat) (Xs : list N)
    (f : N -> N) (z : N) :
  (forall d i, i <= z -> F d (i :: Xs) = value (f i)) ->
  f z = 0 -> (forall i, i < z -> f i <> 0) ->
  z < unsigned_values bits ->
  (N.to_nat z <= depth)%nat ->
  minimisation bits F depth Xs = value z.
Proof.
  intros Ff Fz Fi Lz Ld. unfold minimisation. rewrite Ff by lia. cbn [bind].
  destruct (N.eqb_spec (f 0) 0) as [E|NE].
  - destruct (N.eq_dec z 0) as [->|Nz]; [apply minimisation_helper_final|].
    exfalso. apply (Fi 0); [lia | exact E].
  - assert (z <> 0) by (intros ->; contradiction).
    apply (minimisation_helper_complete F Xs f z Ff Fz Fi Lz
             (Nat.pred (N.to_nat z))); [intros o [] | lia | lia].
Qed.

(** X17: minimisation.  A value it gives is a zero of the function (in
    its first argument).  When the function has values that do not depend
    on the depth up to [z], is zero at [z] and not before, and [z] is an
    [unsigned], the minimisation gives [z] at every depth from [z] on.
    When the function is nowhere zero the minimisation has no value: it
    is not finished as long as the depth allowed is less than the number
    of [unsigned] values, and from there on it is ill-formed: past the
    last [unsigned] the helper for 0, which is not complete, is asked for
    again. *)
Theorem minimisation_least_zero (F : Function) (depth : nat) (Xs : list N) :
  (forall z,
      minimisation bits F depth Xs = value z ->
      exists d, F d (z :: Xs) = value 0)
  /\ (forall f z,
      (forall d i, i <= z -> F d (i :: Xs) = value (f i)) ->
      f z = 0 -> (forall i, i < z -> f i <> 0) ->
      z < unsigned_values bits ->
      (N.to_nat z <= depth)%nat ->
      minimisation bits F depth Xs = value z)
  /\ (forall f,
      (forall d i, F d (i :: Xs) = value (f i)) ->
      (forall i, f i <> 0) ->
      (N.of_nat depth < unsigned_values bits ->
       minimisation bits F depth Xs = unfinished)
      /\ (unsigned_values bits <= N.of_nat depth ->
          minimisation bits F depth Xs = ill_formed)).
Proof.
  split; [apply minimisation_sound | split; [apply minimisation_complete|]].
  intros f Ff Fi. unfold minimisation. rewrite Ff. cbn [bind].
  destruct (N.eqb_spec (f 0) 0) as [E|_]; [exfalso; apply (Fi _ E)|].
  assert (U : 0 < unsigned_values bits).
  { unfold unsigned_values. apply N.neq_0_lt_0, N.pow_nonzero. lia. }
  rewrite (minimisation_helper_no_zero F Xs f Ff Fi depth [] 0 U)
    by (intros o; simpl; lia).
  rewrite N.add_0_r.
  destruct (N.ltb_spec (N.of_nat depth) (unsigned_values bits));
    split; intros; (reflexivity || lia).
Qed.

(** *** The derived functions *)

Ltac fits_cases :=
  repeat match goal with
         | |- context [fits_int bits ?x] =>
             let E := fresh "Fit" in
             destruct (fits_int bits x) eqn:E;
             [apply fits_int_lt in E | apply fits_int_ge in E]
         end.

Lemma successor_small (depth : nat) (x : N) :
  x + 1 < unsigned_values bits -> successor bits depth [x] = value (x + 1).
Proof. intros L. cbn [successor]. rewrite N.mod_small by exact L. reflexivity. Qed.

Lemma constant_is (n : nat) (depth : nat) (Xs : list N) :
  N.of_nat n < unsigned_values bits ->
  constant bits n depth Xs = value (N.of_nat n).
Proof.
  induction n as [|n IH]; intros L; [reflexivity|].
  cbn [constant]. rewrite IH by lia. cbn [bind].
  rewrite successor_small by lia. f_equal. lia.
Qed.

Lemma sum_helper (n : nat) (Y : N) (depth : nat) :
  N.of_nat n + Y < unsigned_values bits ->
  recursion_helper (projection 0)
    (substitution (successor bits) [projection 1]) n [Y] depth
  = value (N.of_nat n + Y).
Proof.
  induction n as [|n IH]; intros L; [reflexivity|].
  cbn [recursion_helper]. rewrite IH by lia. mu_eval.
  rewrite N.mod_small by lia. f_equal. lia.
Qed.

Lemma sum_exact (depth : nat) (X Y : N) :
  sum bits depth [X; Y] =
  if fits_int bits X && fits_int bits Y then value (X + Y) else ill_formed.
Proof.
  unfold sum, binary, recursion. cbn [forallb]. rewrite andb_true_r.
  pose proof unsigned_values_double.
  fits_cases; cbn [andb]; try reflexivity.
  rewrite sum_helper by lia. rewrite N2Nat.id. reflexivity.
Qed.

Lemma pred_helper (n : nat) (depth : nat) :
  recursion_helper zero (projection 0) n [] depth
  = value (N.pred (N.of_nat n)).
Proof.
  induction n as [|n IH]; [reflexivity|].
  cbn [recursion_helper]. rewrite IH. mu_eval. f_equal. lia.
Qed.

Lemma pred_exact (depth : nat) (X : N) :
  pred bits depth [X] =
  if fits_int bits X then value (N.pred X) else ill_formed.
Proof.
  unfold pred, unary, recursion. cbn [forallb]. rewrite andb_true_r.
  fits_cases; try reflexivity.
  rewrite pred_helper, N2Nat.id. reflexivity.
Qed.

Lemma sub1_helper (n : nat) (Y : N) (depth : nat) :
  Y < int_values bits ->
  recursion_helper (projection 0)
    (substitution (pred bits) [projection 1]) n [Y] depth
  = value (Y - N.of_nat n).
Proof.
  intros LY. induction n as [|n IH].
  - cbn [recursion_helper projection]. f_equal. lia.
  - cbn [recursion_helper]. rewrite IH. mu_eval. rewrite pred_exact.
    fits_cases; [f_equal; lia | lia].
Qed.

Lemma sub1_exact (depth : nat) (X Y : N) :
  sub1 bits depth [X; Y] =
  if fits_int bits X && fits_int bits Y then value (Y - X) else ill_formed.
Proof.
  unfold sub1, binary, recursion. cbn [forallb]. rewrite andb_true_r.
  fits_cases; cbn [andb]; try reflexivity.
  rewrite sub1_helper by assumption. rewrite N2Nat.id. reflexivity.
Qed.

Lemma sub_exact (depth : nat) (X Y : N) :
  sub bits depth [X; Y] =
  if fits_int bits Y && fits_int bits X then value (X - Y) else ill_formed.
Proof. unfold sub. mu_eval. apply sub1_exact. Qed.

Lemma mul_step (depth : nat) (k z Y : N) :
  substitution (sum bits) [projection 1; projection 2] depth [k; z; Y]
  = sum bits depth [z; Y].
Proof. reflexivity. Qed.

Lemma mul_helper_sound (n : nat) (Y : N) (depth : nat) (s : N) :
  recursion_helper zero (substitution (sum bits) [projection 1; projection 2])
    n [Y] depth = value s ->
  s = N.of_nat n * Y.
Proof.
  revert s; induction n as [|n IH]; intros s.
  - cbn [recursion_helper zero]. intros E; inversion E. lia.
  - cbn [recursion_helper].
    destruct (recursion_helper zero _ n [Y] depth) as [s'| |];
      cbn [bind]; try discriminate.
    rewrite mul_step, sum_exact. rewrite (IH s' eq_refl).
    fits_cases; cbn [andb]; try discriminate.
    all: intros E; inversion E; lia.
Qed.

Lemma mul_helper_defined (n : nat) (Y : N) (depth : nat) :
  Y < int_values bits -> N.of_nat n * Y < int_values bits + Y ->
  recursion_helper zero (substitution (sum bits) [projection 1; projection 2])
    n [Y] depth = value (N.of_nat n * Y).
Proof.
  intros LY. induction n as [|n IH]; intros L.
  - reflexivity.
  - cbn [recursion_helper]. rewrite IH by nia. cbn [bind].
    rewrite mul_step, sum_exact.
    fits_cases; cbn [andb]; [f_equal; lia | lia | nia | lia].
Qed.

Lemma mul_sound (depth : nat) (X Y s : N) :
  mul bits depth [X; Y] = value s -> s = X * Y.
Proof.
  unfold mul, binary, recursion.
  destruct (forallb (fits_int bits) [X; Y]); [|discriminate].
  intros E. apply mul_helper_sound in E. rewrite N2Nat.id in E. exact E.
Qed.

Lemma mul_defined (depth : nat) (X Y : N) :
  X < int_values bits -> Y < int_values bits ->
  X * Y < int_values bits + Y ->
  mul bits depth [X; Y] = value (X * Y).
Proof.
  intros LX LY L. unfold mul, binary, recursion.
  assert (E : forallb (fits_int bits) [X; Y] = true)
    by (apply forallb_fits; repeat constructor; assumption).
  rewrite E, mul_helper_defined, N2Nat.id; [reflexivity | exact LY|].
  rewrite N2Nat.id. exact L.
Qed.

Lemma one_is_unsigned : 1 < unsigned_values bits.
Proof.
  pose proof unsigned_values_double. pose proof int_values_large. lia.
Qed.

Lemma sgn_helper (n : nat) (depth : nat) :
  recursion_helper zero (constant bits 1) n [] depth
  = value (if N.of_nat n =? 0 then 0 else 1).
Proof.
  induction n as [|n IH]; [reflexivity|].
  cbn [recursion_helper]. rewrite IH. cbn [bind].
  rewrite (constant_is 1) by (pose proof one_is_unsigned; lia).
  destruct (N.eqb_spec (N.of_nat (S n)) 0) as [E|_]; [lia | reflexivity].
Qed.

Lemma sgn_exact (depth : nat) (X : N) :
  sgn bits depth [X] =
  if fits_int bits X then value (if X =? 0 then 0 else 1) else ill_formed.
Proof.
  unfold sgn, unary, recursion. cbn [forallb]. rewrite andb_true_r.
  fits_cases; try reflexivity.
  rewrite sgn_helper, N2Nat.id. reflexivity.
Qed.

Lemma cosgn_helper (n : nat) (depth : nat) :
  recursion_helper (constant bits 1) zero n [] depth
  = value (if N.of_nat n =? 0 then 1 else 0).
Proof.
  induction n as [|n IH].
  - cbn [recursion_helper].
    rewrite (constant_is 1) by (pose proof one_is_unsigned; lia).
    reflexivity.
  - cbn [recursion_helper]. rewrite IH. cbn [bind zero].
    destruct (N.eqb_spec (N.of_nat (S n)) 0) as [E|_]; [lia | reflexivity].
Qed.

Lemma cosgn_exact (depth : nat) (X : N) :
  cosgn bits depth [X] =
  if fits_int bits X then value (if X =? 0 then 1 else 0) else ill_formed.
Proof.
  unfold cosgn, unary, recursion. cbn [forallb]. rewrite andb_true_r.
  fits_cases; try reflexivity.
  rewrite cosgn_helper, N2Nat.id. reflexivity.
Qed.

Lemma lt_exact (depth : nat) (X Y : N) :
  lt bits depth [X; Y] =
  if fits_int bits X && fits_int bits Y
  then value (if X <? Y then 1 else 0) else ill_formed.
Proof.
  change (lt bits depth [X; Y])
    with (bind (bind (sub bits depth [Y; X]) (fun a => value [a]))
            (sgn bits depth)).
  rewrite sub_exact.
  fits_cases; cbn [andb bind]; try reflexivity.
  rewrite sgn_exact. fits_cases; [|lia].
  destruct (N.eqb_spec (Y - X) 0), (N.ltb_spec X Y); (reflexivity || lia).
Qed.

Lemma gt_exact (depth : nat) (X Y : N) :
  gt bits depth [X; Y] =
  if fits_int bits X && fits_int bits Y
  then value (if Y <? X then 1 else 0) else ill_formed.
Proof.
  change (gt bits depth [X; Y])
    with (bind (bind (sub bits depth [X; Y]) (fun a => value [a]))
            (sgn bits depth)).
  rewrite sub_exact.
  fits_cases; cbn [andb bind]; try reflexivity.
  rewrite sgn_exact. fits_cases; [|lia].
  destruct (N.eqb_spec (X - Y) 0), (N.ltb_spec Y X); (reflexivity || lia).
Qed.

Lemma eq_exact (depth : nat) (X Y : N) :
  eq bits depth [X; Y] =
  if fits_int bits X && fits_int bits Y
  then value (if X =? Y then 1 else 0) else ill_formed.
Proof.
  change (eq bits depth [X; Y])
    with (bind
            (bind
               (bind
                  (bind (lt bits depth [X; Y])
                     (fun a =>
                        bind (bind (gt bits depth [X; Y])
                                (fun b => value [b]))
                          (fun l => value (a :: l))))
                  (sum bits depth))
               (fun a => value [a]))
            (cosgn bits depth)).
  rewrite lt_exact, gt_exact.
  pose proof int_values_large.
  fits_cases; cbn [andb bind]; try reflexivity.
  rewrite sum_exact.
  destruct (N.ltb_spec X Y), (N.ltb_spec Y X), (N.eqb_spec X Y); try lia;
    fits_cases; try lia; cbn [andb bind]; rewrite cosgn_exact;
    fits_cases; try lia; reflexivity.
Qed.

Lemma neq_exact (depth : nat) (X Y : N) :
  neq bits depth [X; Y] =
  if fits_int bits X && fits_int bits Y
  then value (if X =? Y then 0 else 1) else ill_formed.
Proof.
  change (neq bits depth [X; Y])
    with (bind (bind (eq bits depth [X; Y]) (fun a => value [a]))
            (cosgn bits depth)).
  rewrite eq_exact.
  pose proof int_values_large.
  fits_cases; cbn [andb bind]; try reflexivity.
  rewrite cosgn_exact.
  destruct (N.eqb_spec X Y); fits_cases; try lia; reflexivity.
Qed.

Lemma square_is_mul (depth : nat) (X : N) :
  square bits depth [X] = mul bits depth [X; X].
Proof. reflexivity. Qed.

(** The function [sqrt] minimises: neq(square(z), x). *)
Lemma sqrt_body (depth : nat) (z X : N) :
  substitution (neq bits)
    [substitution (square bits) [projection 0]; projection 1] depth [z; X]
  = bind (mul bits depth [z; z]) (fun s => neq bits depth [s; X]).
Proof.
  unfold substitution at 1. cbn [map all_values].
  unfold substitution at 1. cbn [map all_values projection bind].
  rewrite square_is_mul.
  destruct (mul bits depth [z; z]); reflexivity.
Qed.

Lemma sqrt_sound (depth : nat) (X z : N) :
  sqrt bits depth [X] = value z -> z * z = X.
Proof.
  unfold sqrt, unary. intros E.
  destruct (minimisation_sound _ _ _ _ E) as [d Ed].
  rewrite sqrt_body in Ed.
  destruct (mul bits d [z; z]) as [s| |] eqn:Es; cbn [bind] in Ed;
    try discriminate.
  apply mul_sound in Es. subst s. rewrite neq_exact in Ed.
  destruct (fits_int bits (z * z) && fits_int bits X); [|discriminate].
  destruct (N.eqb_spec (z * z) X); [assumption | discriminate].
Qed.

Lemma sqrt_complete (depth : nat) (z : N) :
  z * z < int_values bits -> (N.to_nat z <= depth)%nat ->
  sqrt bits depth [z * z] = value z.
Proof.
  intros L Ld. unfold sqrt, unary.
  pose proof unsigned_values_double.
  apply (minimisation_complete _ _ _
           (fun i => if i * i =? z * z then 0 else 1)).
  - intros d i Li. rewrite sqrt_body.
    rewrite mul_defined by nia. cbn [bind]. rewrite neq_exact.
    fits_cases; cbn [andb]; (reflexivity || nia).
  - rewrite N.eqb_refl. reflexivity.
  - intros i Li. destruct (N.eqb_spec (i * i) (z * z)); [nia | discriminate].
  - nia.
  - exact Ld.
Qed.

(** X18: for [X] and [Y] that fit [int], [sum<X, Y>::value] is X + Y
    and, when the product fits [int] too, [mul<X, Y>::value] is X * Y; a
    value of [mul] is never anything else; [constant<N>::fun] has the
    value N whatever its arguments. *)
Theorem sum_mul_values (depth : nat) (X Y : N)
    (HX : X < int_values bits) (HY : Y < int_values bits) :
  sum bits depth [X; Y] = value (X + Y)
  /\ (X * Y < int_values bits -> mul bits depth [X; Y] = value (X * Y))
  /\ (forall s, mul bits depth [X; Y] = value s -> s = X * Y)
  /\ (forall n Xs,
      N.of_nat n < unsigned_values bits ->
      constant bits n depth Xs = value (N.of_nat n)).
Proof.
  split; [|split; [|split]].
  - rewrite sum_exact. fits_cases; (reflexivity || lia).
  - intros L. apply mul_defined; lia.
  - apply mul_sound.
  - intros n Xs. apply constant_is.
Qed.

(** X19: for [X] and [Y] that fit [int], [pred<X>::value] is X - 1, and
    0 for X = 0, and [sub<X, Y>::value] is X - Y, and 0 when X < Y. *)
Theorem pred_sub_values (depth : nat) (X Y : N)
    (HX : X < int_values bits) (HY : Y < int_values bits) :
  pred bits depth [X] = value (if X =? 0 then 0 else X - 1)
  /\ sub bits depth [X; Y] = value (if Y <=? X then X - Y else 0).
Proof.
  split.
  - rewrite pred_exact. fits_cases; [|lia].
    destruct (N.eqb_spec X 0); f_equal; lia.
  - rewrite sub_exact. fits_cases; try lia. cbn [andb].
    destruct (N.leb_spec Y X); f_equal; lia.
Qed.

(** X20: for [X] and [Y] that fit [int]: [sgn] is 0 at 0 and 1
    elsewhere, [cosgn] the other way round; [lt], [gt], [eq] and [neq]
    are 1 when X < Y, X > Y, X = Y and X <> Y, and 0 when not. *)
Theorem comparison_values (depth : nat) (X Y : N)
    (HX : X < int_values bits) (HY : Y < int_values bits) :
  sgn bits depth [X] = value (if X =? 0 then 0 else 1)
  /\ cosgn bits depth [X] = value (if X =? 0 then 1 else 0)
  /\ lt bits depth [X; Y] = value (if X <? Y then 1 else 0)
  /\ gt bits depth [X; Y] = value (if Y <? X then 1 else 0)
  /\ eq bits depth [X; Y] = value (if X =? Y then 1 else 0)
  /\ neq bits depth [X; Y] = value (if X =? Y then 0 else 1).
Proof.
  rewrite sgn_exact, cosgn_exact, lt_exact, gt_exact, eq_exact, neq_exact.
  fits_cases; try lia. cbn [andb]. repeat split.
Qed.

(** X21: [square<z>::value] is z * z when this fits [int], and then
    [sqrt<z * z>::value] is z, once the depth allowed is at least z.  A
    value of [sqrt<X>] is always an exact root of X: when X is not a
    square, [sqrt<X>] has no value at any depth. *)
Theorem sqrt_values (depth : nat) :
  (forall z,
      z * z < int_values bits -> (N.to_nat z <= depth)%nat ->
      square bits depth [z] = value (z * z)
      /\ sqrt bits depth [z * z] = value z)
  /\ (forall X z, sqrt bits depth [X] = value z -> z * z = X)
  /\ (forall X,
      (forall z, z * z <> X) ->
      sqrt bits depth [X] = ill_formed \/ sqrt bits depth [X] = unfinished).
Proof.
  split; [|split].
  - intros z L Ld. split; [|apply sqrt_complete; assumption].
    rewrite square_is_mul. apply mul_defined; nia.
  - apply sqrt_sound.
  - intros X NS. destruct (sqrt bits depth [X]) as [z| |] eqn:E; auto.
    exfalso. apply (NS z), (sqrt_sound _ _ _ E).
Qed.

End Width.

(** *** The values [main] prints, with 32 bits *)

Lemma bits_32 : 16 <= 32.
Proof. lia. Qed.

Lemma recursion_primitive_witness :
  recursion 32 (projection 0) (substitution (successor 32) [projection 1])
    0%nat [2; 3] = value 5
  /\ recursion 32 (projection 0) (substitution (successor 32) [projection 1])
       0%nat [4294967295; 3] = ill_formed.
Proof.
  assert (F3 : Forall (fun x => x < int_values 32) [3])
    by (repeat constructor).
  destruct (recursion_primitive 32 bits_32 (projection 0)
              (substitution (successor 32) [projection 1]) 0%nat [3] F3)
    as (Scheme & _ & Large).
  split.
  - rewrite (Scheme 3 (fun _ z => (z + 1) mod unsigned_values 32) 2);
      [vm_compute; reflexivity | reflexivity | reflexivity |].
    intros y _. reflexivity.
  - apply Large. discriminate.
Defined.

Lemma minimisation_least_zero_witness :
  exists d,
    substitution (neq 32)
      [substitution (square 32) [projection 0]; projection 1] d [5; 25]
    = value 0.
Proof.
  destruct (minimisation_least_zero 32 bits_32
              (substitution (neq 32)
                 [substitution (square 32) [projection 0]; projection 1])
              10%nat [25]) as (Zero & _ & _).
  apply Zero. vm_compute. reflexivity.
Defined.

Lemma sum_mul_values_witness :
  sum 32 0%nat [9; 25] = value 34 /\ mul 32 0%nat [9; 25] = value 225.
Proof.
  destruct (sum_mul_values 32 bits_32 0%nat 9 25) as (S & M & _);
    [reflexivity | reflexivity |].
  split; [exact S | apply M; reflexivity].
Defined.

Lemma pred_sub_values_witness :
  pred 32 0%nat [5] = value 4 /\ sub 32 0%nat [5; 9] = value 0.
Proof.
  apply (pred_sub_values 32 bits_32 0%nat 5 9); reflexivity.
Defined.

Lemma comparison_values_witness :
  lt 32 0%nat [2; 3] = value 1 /\ eq 32 0%nat [2; 3] = value 0.
Proof.
  destruct (comparison_values 32 bits_32 0%nat 2 3)
    as (_ & _ & L & _ & E & _); [reflexivity | reflexivity |].
  split; assumption.
Defined.

Lemma sqrt_values_witness :
  sqrt 32 10%nat [25] = value 5
  /\ (sqrt 32 10%nat [6] = ill_formed \/ sqrt 32 10%nat [6] = unfinished).
Proof.
  destruct (sqrt_values 32 bits_32 10%nat) as (Root & _ & None).
  split.
  - apply (Root 5); [reflexivity | vm_compute; lia].
  - apply None. intros z E.
    destruct (N.le_gt_cases z 2); nia.
Defined.

End MuProperties.

(** * What a step can change on the tape *)

Lemma read_move_left (t : Tape) (z : Z) :
  read (move_left t) z = read t (z - 1)%Z.
Proof.
  unfold read, move_left; simpl.
  destruct (Z.eqb_spec z 0) as [->|N0]; [reflexivity|].
  destruct (Z.ltb_spec 0 z) as [P|NP].
  - destruct (Z.eqb_spec (z - 1) 0) as [E|NE].
    + replace z with 1%Z by lia. reflexivity.
    + destruct (Z.ltb_spec 0 (z - 1)); [|lia].
      replace (Z.to_nat (z - 1)) with (S (Z.to_nat (z - 1 - 1))) by lia.
      reflexivity.
  - destruct (Z.eqb_spec (z - 1) 0); [lia|].
    destruct (Z.ltb_spec 0 (z - 1)); [lia|].
    replace (Z.to_nat (- (z - 1) - 1)) with (S (Z.to_nat (- z - 1))) by lia.
    reflexivity.
Qed.

Lemma read_move_right (t : Tape) (z : Z) :
  read (move_right t) z = read t (z + 1)%Z.
Proof.
  unfold read, move_right; simpl.
  destruct (Z.eqb_spec z 0) as [->|N0]; [reflexivity|].
  destruct (Z.ltb_spec 0 z) as [P|NP].
  - destruct (Z.eqb_spec (z + 1) 0); [lia|].
    destruct (Z.ltb_spec 0 (z + 1)); [|lia].
    replace (Z.to_nat (z + 1 - 1)) with (S (Z.to_nat (z - 1))) by lia.
    reflexivity.
  - destruct (Z.eqb_spec (z + 1) 0) as [E|NE].
    + replace z with (-1)%Z by lia. reflexivity.
    + destruct (Z.ltb_spec 0 (z + 1)); [lia|].
      replace (Z.to_nat (- z - 1)) with (S (Z.to_nat (- (z + 1) - 1))) by lia.
      reflexivity.
Qed.

Lemma read_write_tape (t : Tape) (C : ascii) (z : Z) :
  z <> 0%Z -> read (write_tape t C) z = read t z.
Proof.
  intros N0. unfold write_tape. destruct (Ascii.eqb C wildcard); [reflexivity|].
  unfold read; simpl. destruct (Z.eqb_spec z 0); [contradiction | reflexivity].
Qed.

Lemma read_move_tape (Dir : ascii) (t t' : Tape) :
  move_tape Dir t = Some t' ->
  exists shift : Z,
    (-1 <= shift <= 1)%Z /\ forall z, read t' (z - shift)%Z = read t z.
Proof.
  unfold move_tape.
  destruct (Ascii.eqb Dir "L"); [|destruct (Ascii.eqb Dir "R");
    [|destruct (Ascii.eqb Dir "0")]]; intros E; inversion E; subst t'.
  - exists (-1)%Z. split; [lia|]. intros z. rewrite read_move_left.
    f_equal. lia.
  - exists 1%Z. split; [lia|]. intros z. rewrite read_move_right.
    f_equal. lia.
  - exists 0%Z. split; [lia|]. intros z. f_equal. lia.
Qed.

Section Locality.

Context {State : Type} `{States State}.

Lemma step_frame (m m' : Machine State) :
  step m = Some m' ->
  exists shift : Z,
    (-1 <= shift <= 1)%Z
    /\ forall z, z <> 0%Z ->
         read (machine_tape m') (z - shift)%Z = read (machine_tape m) z.
Proof.
  intros S1. destruct (step_inv _ _ S1) as (i & t' & _ & _ & V & ->).
  destruct (read_move_tape _ _ _ V) as (shift & B & R).
  exists shift. split; [exact B|]. intros z N0. simpl.
  rewrite R. apply read_write_tape, N0.
Qed.

(** X22: the machine changes the tape under its head only, and the head
    moves by one cell at most in a step: after [n] steps the head is at
    most [n] cells away from where it started, and every cell [n] cells
    away or more from there reads as it did at the start.  In one step
    every cell but the one under the head keeps its symbol. *)
Theorem steps_change_cells_near_head (n : nat) (m m' : Machine State)
    (Hsteps : steps n m = Some m') :
  exists pos : Z,
    (- Z.of_nat n <= pos <= Z.of_nat n)%Z
    /\ forall z,
         (Z.of_nat n <= Z.abs z)%Z ->
         read (machine_tape m') (z - pos)%Z = read (machine_tape m) z.
Proof.
  revert m Hsteps; induction n as [|n IH]; simpl steps; intros m.
  - intros E; inversion E; subst m'. exists 0%Z. split; [lia|].
    intros z _. f_equal. lia.
  - destruct (step m) as [m1|] eqn:S1; [|discriminate].
    intros E. destruct (IH _ E) as (pos & B & R).
    destruct (step_frame _ _ S1) as (shift & Bs & Rs).
    exists (shift + pos)%Z. split; [lia|]. intros z Far.
    rewrite <- (Rs z) by lia.
    replace (z - (shift + pos))%Z with (z - shift - pos)%Z by lia.
    apply R; lia.
Qed.

(** *** One step, cell by cell *)



End Locality.

(** ** More examples on the reversal machine *)

Module MoreExamples.

Import Reversal.

Lemma run_keeps_program_witness : machine_program reversed = reverse_prog.
Proof.
  apply (proj1 (run_keeps_program
                  (machine put_right_marker reverse_tape1 reverse_prog))
           67 reversed ReversalProperties.run_reverse_tape1).
Defined.


Lemma run_ill_formed_iff_witness :
  run 2 (machine rewind (make_tape []) [instruction rewind "#" rewind "#" "X"])
  = ill_formed.
Proof.
  apply (proj2 (proj1 (run_ill_formed_iff 2
                         (machine rewind (make_tape [])
                            [instruction rewind "#" rewind "#" "X"])))).
  exists 0, (machine rewind (make_tape [])
               [instruction rewind "#" rewind "#" "X"]).
  split; [reflexivity|]. right. split; [lia|]. split; [reflexivity|].
  exists (instruction rewind "#" rewind "#" "X").
  repeat split; try reflexivity; discriminate.
Defined.

Lemma steps_change_cells_near_head_witness :
  exists pos : Z,
    (- 66 <= pos <= 66)%Z
    /\ read (machine_tape reversed) (100 - pos)%Z = read reverse_tape1 100%Z.
Proof.
  destruct (steps_change_cells_near_head 66
              (machine put_right_marker reverse_tape1 reverse_prog) reversed
              ReversalProperties.steps_reverse_tape1) as (pos & B & R).
  exists pos. split; [exact B|]. apply R; lia.
Defined.

End MoreExamples.

Module MuExamples.

Import Mu.

Lemma projection_nth_witness :
  projection 1 0 [7; 8; 9]%N = value 8%N.
Proof.
  apply (proj1 (proj2 (MuProperties.projection_nth 1 0 [7; 8; 9]%N))
           [7%N] 8%N [9%N]).
  reflexivity.
Defined.

End MuExamples.
